(** * Gmail Auto Labeler: a shallow embedding of Gmail_Auto_Labeler_Script.py

    The script reads [config.json], authenticates against the Gmail API and,
    for every (sender, label name) pair of the configuration, resolves the
    label, searches the sender's recent messages and adds the label to the
    messages that do not carry it yet.

    The Python functions are embedded as computations in a small monad [M]
    that threads the outside world (configuration file, credential store,
    remote label directory and mailbox, clock, fault script), returns either
    a value or a raised exception, and records every external call and every
    [logging] call in chronological order. *)

From Stdlib Require Import ZArith Ascii String.

From stdpp Require Import base option list strings gmap pretty.

Local Open Scope Z_scope.

(** ** Python values that the script manipulates *)

(** Exceptions that can travel through the script. [OtherError] stands for
    any exception of the client libraries that is not an [HttpError]
    (transport errors, refresh errors, ...). *)
Inductive exn :=
| HttpError
| ValueError
| OverflowError
| FileNotFoundError
| JSONDecodeError
| OtherError.

Inductive result (A : Type) :=
| Ok (a : A)
| Raise (e : exn).

Arguments Ok {A} a.

Arguments Raise {A} e.

(** [google.oauth2.credentials.Credentials], as far as the script looks at it. *)
Record Credentials := {
  valid : bool;
  expired : bool;
  refresh_token : option string;
}.

(** The service handle returned by [googleapiclient.discovery.build]. *)
Inductive Resource := GmailService.

(** An entry of [users.labels.list] and the result of [users.labels.create]. *)
Record label := {
  lbl_name : string;
  lbl_id : string;
}.

(** The [body] of [users.labels.create]. *)
Record label_body := {
  labelListVisibility : string;
  messageListVisibility : string;
  name : string;
}.

(** One element of the ["messages"] list of [users.messages.list]. *)
Record message_ref := { ref_id : string }.

(** The response of [users.messages.list]; both keys are optional. *)
Record list_response := {
  messages : option (list message_ref);
  nextPageToken : option nat;
}.

(** The response of [users.messages.get] with [format="metadata"]; Gmail
    omits ["labelIds"] for a message that carries no label. *)
Record message := {
  msg_id : string;
  labelIds : option (list string);
}.

(** The [body] of [users.messages.modify]: a dict from request keys to lists
    of label ids, in the order of the dict literal. *)
Definition modify_body := list (string * list string).

(** The parsed [config.json]. [SENDER_LABELS] keeps the order of
    [dict.items()]; both keys may be missing. *)
Record Config := {
  SENDER_LABELS : option (list (string * string));
  DAYS_TO_LOOK_BACK : option (gmap string string);
}.

Inductive config_state :=
| ConfigMissing
| ConfigUnparsable
| ConfigParsed (c : Config).

(** ** Observable events: external calls and log records *)

Inductive call :=
| CredentialsLoad
| CredentialsRefresh
| OAuthFlow
| TokenWrite (c : Credentials)
| ServiceBuild
| LabelsList
| LabelsCreate (body : label_body)
| MessagesList (q : string) (pageToken : option nat)
| MessagesGet (id : string)
| MessagesModify (id : string) (body : modify_body).

Inductive level := INFO | WARNING | ERROR.

Inductive log_message :=
| ConfigLoaded
| ConfigNotFound (path : string)
| ConfigParseError
| AuthStarting
| AuthLoadingToken
| AuthRefreshing
| AuthOAuthFlow
| AuthSaved
| AuthValid
| AuthServiceBuilt
| AuthFailed (e : exn)
| LabelExists (label_name : string)
| LabelCreating (label_name : string)
| LabelCreated (label_name : string)
| LabelError (label_name : string)
| LabelNotFoundForSender (label_name sender_email : string)
| NoEmailsFound (sender_email : string) (days_to_look_back : Z)
| Labeled (id sender_email label_name : string)
| AlreadyLabeled (id sender_email label_name : string)
| ErrorOccurred
| NoSenderLabels
| InvalidDays (days_to_look_back_str : string).

Inductive event :=
| Call (c : call)
| Log (lvl : level) (m : log_message).

(** ** The outside world *)

Record world := World {
  config_file : config_state;               (* config.json *)
  token_file : option Credentials;          (* creds\token.json *)
  granted : Credentials;                    (* what the OAuth flow hands out *)
  labels : list label;                      (* the remote label directory *)
  next_label : nat;                         (* counter of the ids Gmail mints *)
  mailbox : gmap string (list string);      (* message id -> label ids *)
  search : string → list (list string);     (* query -> result pages of ids *)
  calendar : nat → Z → option string;       (* clock: tick, days back -> date *)
  ticks : nat;                              (* external calls made so far *)
  faults : list (option exn);               (* failures of the coming calls *)
}.

(** ** The monad *)

Definition M (A : Type) : Type := world → result A * world * list event.

Definition ret {A} (a : A) : M A := λ w, (Ok a, w, []).

Definition bind {A B} (m : M A) (k : A → M B) : M B := λ w,
  match m w with
  | (Ok a, w1, ev1) =>
      match k a w1 with
      | (r, w2, ev2) => (r, w2, ev1 ++ ev2)
      end
  | (Raise e, w1, ev1) => (Raise e, w1, ev1)
  end.

Definition raise {A} (e : exn) : M A := λ w, (Raise e, w, []).

(** [try: body except ...: handler e]; the handler decides by itself which
    exceptions it lets through. *)
Definition try_except {A} (body : M A) (handler : exn → M A) : M A := λ w,
  match body w with
  | (Ok a, w1, ev1) => (Ok a, w1, ev1)
  | (Raise e, w1, ev1) =>
      match handler e w1 with
      | (r, w2, ev2) => (r, w2, ev1 ++ ev2)
      end
  end.

Definition logging (lvl : level) (m : log_message) : M unit :=
  λ w, (Ok tt, w, [Log lvl m]).

#[global] Instance M_ret : MRet M := @ret.

#[global] Instance M_bind : MBind M := λ A B k m, bind m k.

(** [for x in xs: body x] *)
Fixpoint for_each {A} (xs : list A) (body : A → M unit) : M unit :=
  match xs with
  | [] => ret tt
  | x :: xs' => body x;; for_each xs' body
  end.

(** ** External calls *)

(** Every external call consumes one entry of the fault script and one tick
    of the clock. *)
Definition step (w : world) : world :=
  World (config_file w) (token_file w) (granted w) (labels w) (next_label w)
        (mailbox w) (search w) (calendar w) (S (ticks w)) (tail (faults w)).

Definition external {A} (c : call) (serve : world → result A * world) : M A :=
  λ w,
    match faults w with
    | Some e :: _ => (Raise e, step w, [Call c])
    | _ => let '(r, w1) := serve (step w) in (r, w1, [Call c])
    end.

Definition set_token (c : Credentials) (w : world) : world :=
  World (config_file w) (Some c) (granted w) (labels w) (next_label w)
        (mailbox w) (search w) (calendar w) (ticks w) (faults w).

Definition add_label (l : label) (w : world) : world :=
  World (config_file w) (token_file w) (granted w) (labels w ++ [l])
        (S (next_label w)) (mailbox w) (search w) (calendar w) (ticks w)
        (faults w).

Definition set_message (id : string) (ls : list string) (w : world) : world :=
  World (config_file w) (token_file w) (granted w) (labels w) (next_label w)
        (<[id := ls]> (mailbox w)) (search w) (calendar w) (ticks w)
        (faults w).

(** [service.users().labels().list(userId="me").execute()["labels"]] *)
Definition labels_list (service : Resource) : M (list label) :=
  external LabelsList (λ w, (Ok (labels w), w)).

(** [service.users().labels().create(userId="me", body=...).execute()];
    Gmail refuses a second label of the same name. *)
Definition labels_create (service : Resource) (body : label_body) : M label :=
  external (LabelsCreate body) (λ w,
    if bool_decide (name body ∈ lbl_name <$> labels w) then (Raise HttpError, w)
    else
      let l := {| lbl_name := name body;
                  lbl_id := "Label_" +:+ pretty (next_label w) |} in
      (Ok l, add_label l w)).

(** [service.users().messages().list(userId="me", q=..., pageToken=...)] *)
Definition messages_list (service : Resource) (q : string)
    (pageToken : option nat) : M list_response :=
  external (MessagesList q pageToken) (λ w,
    let i := default 0%nat pageToken in
    match search w q !! i with
    | None => (Ok {| messages := None; nextPageToken := None |}, w)
    | Some page =>
        (Ok {| messages := match page with
                           | [] => None
                           | _ => Some (Build_message_ref <$> page)
                           end;
               nextPageToken := match search w q !! S i with
                                | Some _ => Some (S i)
                                | None => None
                                end |}, w)
    end).

Definition response_of (id : string) (ls : list string) : message :=
  {| msg_id := id;
     labelIds := match ls with [] => None | _ => Some ls end |}.

(** [service.users().messages().get(userId="me", id=..., format="metadata")] *)
Definition messages_get (service : Resource) (id : string) : M message :=
  external (MessagesGet id) (λ w,
    match mailbox w !! id with
    | None => (Raise HttpError, w)
    | Some ls => (Ok (response_of id ls), w)
    end).

(** [body.get(key, [])] *)
Fixpoint body_get (key : string) (body : modify_body) : list string :=
  match body with
  | [] => []
  | (k, v) :: body' => if decide (k = key) then v else body_get key body'
  end.

(** What Gmail does to a message's labels on [modify]: the ids under
    ["removeLabelIds"] go, the ids under ["addLabelIds"] are added. *)
Definition modify_labels (body : modify_body) (ls : list string) : list string :=
  let kept := filter (λ l, l ∉ body_get "removeLabelIds" body) ls in
  kept ++ filter (λ l, l ∉ kept) (remove_dups (body_get "addLabelIds" body)).

(** [service.users().messages().modify(userId="me", id=..., body=...)] *)
Definition messages_modify (service : Resource) (id : string)
    (body : modify_body) : M message :=
  external (MessagesModify id body) (λ w,
    match mailbox w !! id with
    | None => (Raise HttpError, w)
    | Some ls =>
        let ls' := modify_labels body ls in
        (Ok (response_of id ls'), set_message id ls' w)
    end).

(** [(datetime.now() - timedelta(days=days)).strftime("%Y/%m/%d")]; the
    subtraction raises [OverflowError] when it leaves the calendar. *)
Definition date_n_days_ago (days : Z) : M string := λ w,
  match calendar w (ticks w) days with
  | Some d => (Ok d, w, [])
  | None => (Raise OverflowError, w, [])
  end.

(** ** Python's [int] on a string

    [int(s)] strips ASCII white space on both sides, takes one optional sign
    and then decimal digits, where single underscores may separate digits.
    Anything else raises [ValueError]. (Strings are byte strings here:
    non-ASCII digits and the interpreter's optional limit on the number of
    digits are left out.) *)

Definition is_space (c : ascii) : bool :=
  let n := nat_of_ascii c in
  ((9 <=? n)%nat && (n <=? 13)%nat) || (n =? 32)%nat.

Definition digit_of (c : ascii) : option Z :=
  let n := nat_of_ascii c in
  if ((48 <=? n)%nat && (n <=? 57)%nat)%bool then Some (Z.of_nat (n - 48))
  else None.

Fixpoint lstrip (s : list ascii) : list ascii :=
  match s with
  | c :: s' => if is_space c then lstrip s' else s
  | [] => []
  end.

Definition strip (s : list ascii) : list ascii :=
  reverse (lstrip (reverse (lstrip s))).

(** The digits after the first one; [sep] tells that the previous character
    was an underscore. *)
Fixpoint more_digits (acc : Z) (sep : bool) (s : list ascii) : option Z :=
  match s with
  | [] => if sep then None else Some acc
  | c :: s' =>
      if Ascii.eqb c "_"%char then
        if sep then None else more_digits acc true s'
      else
        match digit_of c with
        | Some d => more_digits (10 * acc + d) false s'
        | None => None
        end
  end.

Definition digits (s : list ascii) : option Z :=
  match s with
  | [] => None
  | c :: s' =>
      match digit_of c with
      | Some d => more_digits d false s'
      | None => None
      end
  end.

Definition py_int (s : string) : option Z :=
  match strip (list_ascii_of_string s) with
  | "-"%char :: s' => Z.opp <$> digits s'
  | "+"%char :: s' => digits s'
  | s' => digits s'
  end.

(** [int(s)] as a computation: the value, or [ValueError]. *)
Definition int (s : string) : M Z :=
  match py_int s with
  | Some z => mret z
  | None => raise ValueError
  end.

(** ** The script *)

(** [load_config]: the world holds [config.json]; no other path exists. *)
Definition read_json (config_path : string) : M Config := λ w,
  match (if decide (config_path = "config.json") then config_file w
         else ConfigMissing) with
  | ConfigMissing => (Raise FileNotFoundError, w, [])
  | ConfigUnparsable => (Raise JSONDecodeError, w, [])
  | ConfigParsed c => (Ok c, w, [])
  end.

Definition load_config (config_path : string) : M Config :=
  try_except
    (config ← read_json config_path;
     logging INFO ConfigLoaded;;
     mret config)
    (λ e, match e with
          | FileNotFoundError =>
              logging ERROR (ConfigNotFound config_path);; raise e
          | JSONDecodeError =>
              logging ERROR ConfigParseError;; raise e
          | _ => raise e
          end).

(** The pieces of the outside world that [authenticate_gmail] touches. *)
Definition token_exists : M bool := λ w, (Ok (bool_decide (is_Some (token_file w))), w, []).

Definition credentials_load : M Credentials :=
  external CredentialsLoad (λ w,
    match token_file w with
    | Some c => (Ok c, w)
    | None => (Raise FileNotFoundError, w)
    end).

Definition credentials_refresh (c : Credentials) : M Credentials :=
  external CredentialsRefresh (λ w,
    (Ok {| valid := true; expired := false;
           refresh_token := refresh_token c |}, w)).

Definition run_local_server : M Credentials :=
  external OAuthFlow (λ w, (Ok (granted w), w)).

Definition token_write (c : Credentials) : M unit :=
  external (TokenWrite c) (λ w, (Ok tt, set_token c w)).

Definition build : M Resource :=
  external ServiceBuild (λ w, (Ok GmailService, w)).

(** Truth value of an optional string: [None] and [""] are false. *)
Definition truthy (s : option string) : bool :=
  match s with
  | Some (String _ _) => true
  | _ => false
  end.

Definition authenticate_gmail : M Resource :=
  logging INFO AuthStarting;;
  try_except
    (present ← token_exists;
     creds ← (if present : bool then
                logging INFO AuthLoadingToken;;
                c ← credentials_load;
                mret (Some c)
              else mret None);
     creds ← (match creds with
              | Some c =>
                  if valid c then logging INFO AuthValid;; mret c
                  else
                    c' ← (if expired c && truthy (refresh_token c) then
                            logging INFO AuthRefreshing;;
                            credentials_refresh c
                          else
                            logging INFO AuthOAuthFlow;;
                            run_local_server);
                    token_write c';;
                    logging INFO AuthSaved;;
                    mret c'
              | None =>
                  logging INFO AuthOAuthFlow;;
                  c' ← run_local_server;
                  token_write c';;
                  logging INFO AuthSaved;;
                  mret c'
              end);
     service ← build;
     logging INFO AuthServiceBuilt;;
     mret service)
    (λ e, logging ERROR (AuthFailed e);; raise e).

(** [{label["name"]: label["id"] for label in labels}]: a later entry of the
    same name overwrites an earlier one. *)
Definition label_map_of (labels : list label) : gmap string string :=
  foldl (λ m l, <[lbl_name l := lbl_id l]> m) ∅ labels.

Definition get_or_create_label (service : Resource) (label_name : string)
    : M string :=
  try_except
    (labels ← labels_list service;
     let label_map := label_map_of labels in
     match label_map !! label_name with
     | Some id =>
         logging INFO (LabelExists label_name);;
         mret id
     | None =>
         logging INFO (LabelCreating label_name);;
         let label_body := {| labelListVisibility := "labelShow";
                              messageListVisibility := "show";
                              name := label_name |} in
         label ← labels_create service label_body;
         logging INFO (LabelCreated label_name);;
         mret (lbl_id label)
     end)
    (λ error, match error with
              | HttpError => logging ERROR (LabelError label_name);; raise error
              | _ => raise error
              end).

(** The body of the inner [for message in messages] loop. *)
Definition label_message (service : Resource)
    (sender_email label_name label_id : string) (message : message_ref)
    : M unit :=
  msg ← messages_get service (ref_id message);
  let existing_labels := default [] (labelIds msg) in
  if bool_decide (label_id ∉ existing_labels) then
    messages_modify service (ref_id message) [("addLabelIds", [label_id])];;
    logging INFO (Labeled (ref_id message) sender_email label_name)
  else
    logging INFO (AlreadyLabeled (ref_id message) sender_email label_name).

(** The body of the outer [for sender_email, label_name in ...] loop;
    [continue] ends the body. *)
Definition label_sender (service : Resource) (days_to_look_back : Z)
    (item : string * string) : M unit :=
  let '(sender_email, label_name) := item in
  label_id ← get_or_create_label service label_name;
  if decide (label_id = "") then
    logging WARNING (LabelNotFoundForSender label_name sender_email)
  else
    date_n_days_ago ← date_n_days_ago days_to_look_back;
    let query := "from:" +:+ sender_email +:+ " after:" +:+ date_n_days_ago in
    results ← messages_list service query None;
    let messages := default [] (messages results) in
    match messages with
    | [] => logging INFO (NoEmailsFound sender_email days_to_look_back)
    | _ => for_each messages
             (label_message service sender_email label_name label_id)
    end.

Definition label_emails (service : Resource)
    (sender_label_map : list (string * string)) (days_to_look_back : Z)
    : M unit :=
  try_except
    (for_each sender_label_map (label_sender service days_to_look_back))
    (λ error, match error with
              | HttpError => logging ERROR ErrorOccurred
              | _ => raise error
              end).

(** [main]; [None] from the [try] block stands for the early [return]. *)
Definition main : M unit :=
  let config_path := "config.json" in
  config ← load_config config_path;
  let sender_labels := default [] (SENDER_LABELS config) in
  let days_to_look_back_str :=
    default "30" (default ∅ (DAYS_TO_LOOK_BACK config) !! "Days") in
  match sender_labels with
  | [] => logging WARNING NoSenderLabels
  | _ =>
      parsed ← try_except
        (days_to_look_back ← int days_to_look_back_str;
         mret (Some days_to_look_back))
        (λ e, match e with
              | ValueError =>
                  logging ERROR (InvalidDays days_to_look_back_str);;
                  mret None
              | _ => raise e
              end);
      match parsed with
      | None => mret tt
      | Some days_to_look_back =>
          service ← authenticate_gmail;
          label_emails service sender_labels days_to_look_back
      end
  end.

(** ** Reading event streams *)

Definition calls_of (evs : list event) : list call :=
  omap (λ e, match e with Call c => Some c | Log _ _ => None end) evs.

Definition logs_of (evs : list event) : list log_message :=
  omap (λ e, match e with Log _ m => Some m | Call _ => None end) evs.

Definition is_modify (c : call) : bool :=
  match c with MessagesModify _ _ => true | _ => false end.

Definition is_get (c : call) : bool :=
  match c with MessagesGet _ => true | _ => false end.

Definition is_labels_list (c : call) : bool :=
  match c with LabelsList => true | _ => false end.

Definition is_messages_list (c : call) : bool :=
  match c with MessagesList _ _ => true | _ => false end.

(** ** A small world to try things on *)

Definition no_credentials : Credentials :=
  {| valid := false; expired := false; refresh_token := None |}.

Definition fresh_credentials : Credentials :=
  {| valid := true; expired := false; refresh_token := Some "r" |}.

Definition demo_search (q : string) : list (list string) :=
  if decide (q = "from:a@x.org after:2024/01/01") then [["m1"; "m2"]]
  else if decide (q = "from:b@x.org after:2024/01/01") then [["m3"]]
  else [].

Definition demo_world : world :=
  {| config_file :=
       ConfigParsed {| SENDER_LABELS := Some [("a@x.org", "Alerts"); ("b@x.org", "Bills")];
                       DAYS_TO_LOOK_BACK := Some {[ "Days" := "7" ]} |};
     token_file := Some fresh_credentials;
     granted := fresh_credentials;
     labels := [ {| lbl_name := "INBOX"; lbl_id := "INBOX" |};
                 {| lbl_name := "Alerts"; lbl_id := "Label_1" |} ];
     next_label := 2;
     mailbox := {[ "m1" := ["INBOX"]; "m2" := ["INBOX"; "Label_1"]; "m3" := [] ]};
     search := demo_search;
     calendar := λ _ _, Some "2024/01/01";
     ticks := 0;
     faults := [] |}.

(** One failing call in front of an otherwise healthy world. *)
Definition with_faults (fs : list (option exn)) (w : world) : world :=
  World (config_file w) (token_file w) (granted w) (labels w) (next_label w)
        (mailbox w) (search w) (calendar w) (ticks w) fs.

Definition with_config (c : Config) (w : world) : world :=
  World (ConfigParsed c) (token_file w) (granted w) (labels w) (next_label w)
        (mailbox w) (search w) (calendar w) (ticks w) (faults w).

Definition demo_rules : list (string * string) :=
  [("a@x.org", "Alerts"); ("b@x.org", "Bills")].

(** ** Predicates and sample worlds of the statements *)

Definition create_body (label_name : string) : label_body :=
  {| labelListVisibility := "labelShow";
     messageListVisibility := "show";
     name := label_name |}.

Definition query_of (sender_email date : string) : string :=
  "from:" +:+ sender_email +:+ " after:" +:+ date.

Definition quiet_world : world :=
  {| config_file := ConfigMissing;
     token_file := Some fresh_credentials;
     granted := fresh_credentials;
     labels := [ {| lbl_name := "Alerts"; lbl_id := "Label_1" |} ];
     next_label := 2;
     mailbox := ∅;
     search := λ _, [];
     calendar := λ _ _, Some "2024/01/01";
     ticks := 0;
     faults := [] |}.

Definition empty_config : Config :=
  {| SENDER_LABELS := Some []; DAYS_TO_LOOK_BACK := Some {[ "Days" := "7" ]} |}.

(** The string [main] hands to [int]. *)
Definition lookback_string (c : Config) : string :=
  default "30" (default ∅ (DAYS_TO_LOOK_BACK c) !! "Days").

(** What [main] does once the configuration has passed both checks. *)
Definition run (sender_labels : list (string * string)) (days : Z) : M unit :=
  service ← authenticate_gmail;
  label_emails service sender_labels days.

Definition config_without_days : Config :=
  {| SENDER_LABELS := Some demo_rules; DAYS_TO_LOOK_BACK := None |}.

Definition config_with_days (days : string) : Config :=
  {| SENDER_LABELS := Some demo_rules;
     DAYS_TO_LOOK_BACK := Some {[ "Days" := days ]} |}.

(** [emits P m]: whatever the world and the outcome, every event of [m]
    satisfies [P]. *)
Definition emits {A} (P : event → Prop) (m : M A) : Prop :=
  ∀ w r w1 ev, m w = (r, w1, ev) → Forall P ev.

(** The part of the outer loop body that follows label resolution. *)
Definition search_and_label (service : Resource) (days_to_look_back : Z)
    (sender_email label_name label_id : string) : M unit :=
  if decide (label_id = "") then
    logging WARNING (LabelNotFoundForSender label_name sender_email)
  else
    date_n_days_ago ← date_n_days_ago days_to_look_back;
    let query := "from:" +:+ sender_email +:+ " after:" +:+ date_n_days_ago in
    results ← messages_list service query None;
    let messages := default [] (messages results) in
    match messages with
    | [] => logging INFO (NoEmailsFound sender_email days_to_look_back)
    | _ => for_each messages
             (label_message service sender_email label_name label_id)
    end.

(** After resolution a rule only searches (first page, no page token), fetches
    and modifies, and every [modify] asks for the one label id and nothing
    else; it logs what it found and did. *)
Definition rule_event (label_id : string) (e : event) : Prop :=
  match e with
  | Call (MessagesList _ pageToken) => pageToken = None
  | Call (MessagesGet _) => True
  | Call (MessagesModify _ body) => body = [("addLabelIds", [label_id])]
  | Call _ => False
  | Log _ (LabelNotFoundForSender _ _) | Log _ (NoEmailsFound _ _)
  | Log _ (Labeled _ _ _) | Log _ (AlreadyLabeled _ _ _) => True
  | Log _ _ => False
  end.

Definition add_only (label_id : string) : modify_body :=
  [("addLabelIds", [label_id])].

(** The four ways an iteration can go. *)
Inductive message_outcome (label_id id sender_email label_name : string)
    (w : world) : result unit → world → list event → Prop :=
| fetch_failed e :
    head (faults w) = Some (Some e)
    ∨ (mailbox w !! id = None ∧ e = HttpError) →
    message_outcome label_id id sender_email label_name w
      (Raise e) (step w) [Call (MessagesGet id)]
| already_labelled ls :
    mailbox w !! id = Some ls → label_id ∈ ls →
    message_outcome label_id id sender_email label_name w
      (Ok tt) (step w)
      [Call (MessagesGet id);
       Log INFO (AlreadyLabeled id sender_email label_name)]
| modify_failed ls e :
    mailbox w !! id = Some ls → label_id ∉ ls →
    faults w !! 1%nat = Some (Some e) →
    message_outcome label_id id sender_email label_name w
      (Raise e) (step (step w))
      [Call (MessagesGet id); Call (MessagesModify id (add_only label_id))]
| newly_labelled ls :
    mailbox w !! id = Some ls → label_id ∉ ls →
    message_outcome label_id id sender_email label_name w
      (Ok tt) (set_message id (ls ++ [label_id]) (step (step w)))
      [Call (MessagesGet id); Call (MessagesModify id (add_only label_id));
       Log INFO (Labeled id sender_email label_name)].

(** [touched label_id w w1]: between [w] and [w1] a message either kept its
    labels or gained [label_id], which it did not have, at the end. *)
Definition touched (label_id : string) (w w1 : world) : Prop :=
  ∀ id,
    mailbox w1 !! id = mailbox w !! id
    ∨ ∃ ls, mailbox w !! id = Some ls ∧ (label_id ∉ ls)
            ∧ mailbox w1 !! id = Some (ls ++ [label_id]).

Definition list_calls (ev : list event) : nat :=
  length (filter is_labels_list (calls_of ev)).

Definition same_label_rules : list (string * string) :=
  [("a@x.org", "Alerts"); ("b@x.org", "Alerts")].

(** Label resolution followed by [search_and_label] never passes a page
    token: every list request of a run asks for the first page. *)
Definition first_page_request (e : event) : Prop :=
  match e with
  | Call (MessagesList _ pageToken) => pageToken = None
  | _ => True
  end.

(** A mailbox whose search for the sender has two result pages. *)
Definition paged_world : world :=
  {| config_file := ConfigMissing;
     token_file := Some fresh_credentials;
     granted := fresh_credentials;
     labels := [ {| lbl_name := "Alerts"; lbl_id := "Label_1" |} ];
     next_label := 2;
     mailbox := {[ "m1" := ["INBOX"]; "m2" := ["INBOX"] ]};
     search := λ q, if decide (q = "from:a@x.org after:2024/01/01")
                    then [["m1"]; ["m2"]] else [];
     calendar := λ _ _, Some "2024/01/01";
     ticks := 0;
     faults := [] |}.

(** The ids on the first result page of the sender's search. *)
Definition page (w : world) (sender_email date : string) : list string :=
  default [] (search w (query_of sender_email date) !! 0%nat).

Definition carries (w : world) (label_id id : string) : Prop :=
  ∃ ls, mailbox w !! id = Some ls ∧ label_id ∈ ls.

(** A rule is settled when its label name resolves and every message of the
    sender's page carries the resolved id. *)
Definition settled (date : string) (w : world) (rule : string * string) : Prop :=
  ∃ label_id,
    label_map_of (labels w) !! rule.2 = Some label_id
    ∧ (label_id ≠ "" → ∀ id, id ∈ page w rule.1 date → carries w label_id id).

(** The remote side only gains: resolved names stay resolved, labels stay on
    their messages, and the search and the clock are as they were. *)
Definition grows (w w1 : world) : Prop :=
  search w1 = search w ∧ calendar w1 = calendar w
  ∧ (∀ n l, label_map_of (labels w) !! n = Some l →
            label_map_of (labels w1) !! n = Some l)
  ∧ (∀ l id, carries w l id → carries w1 l id).

Definition same_remote (w w1 : world) : Prop :=
  labels w1 = labels w ∧ mailbox w1 = mailbox w
  ∧ search w1 = search w ∧ calendar w1 = calendar w.

(** The look-back date does not change while the script runs. *)
Definition steady (days : Z) (date : string) (w : world) : Prop :=
  ∀ t, calendar w t days = Some date.

(** Events of a pass that changes nothing on the remote side. *)
Definition idle_event (e : event) : Prop :=
  match e with
  | Call (MessagesModify _ _) | Call (LabelsCreate _) => False
  | Log _ (Labeled _ _ _) => False
  | _ => True
  end.

(** A message is processed when the log says that it was labelled or that it
    was already labelled. *)
Definition processed (ev : list event) (id sender_email label_name : string)
    : Prop :=
  Log INFO (Labeled id sender_email label_name) ∈ ev
  ∨ Log INFO (AlreadyLabeled id sender_email label_name) ∈ ev.

Definition recorded (date : string) (w : world)
    (id sender_email label_name : string) : Prop :=
  ∃ label_id,
    label_map_of (labels w) !! label_name = Some label_id
    ∧ label_id ≠ "" ∧ id ∈ page w sender_email date.

(** Events of label resolution. *)
Definition resolution_event (e : event) : Prop :=
  match e with
  | Call LabelsList | Call (LabelsCreate _) => True
  | Log _ (LabelExists _) | Log _ (LabelCreating _)
  | Log _ (LabelCreated _) | Log _ (LabelError _) => True
  | _ => False
  end.

(** ** Predicates of the further properties *)

(** [calm n w]: none of the next [n] external calls is made to fail. *)
Definition calm (n : nat) (w : world) : Prop :=
  ∀ i e, (i < n)%nat → faults w !! i ≠ Some (Some e).

(** [keeps R m]: [m] takes every world to an [R]-related one, whatever the
    outcome. *)
Definition keeps {A} (R : world → world → Prop) (m : M A) : Prop :=
  ∀ w r w1 ev, m w = (r, w1, ev) → R w w1.

(** Events of [authenticate_gmail]: no call of the Gmail API among them. *)
Definition auth_event (e : event) : Prop :=
  match e with
  | Call CredentialsLoad | Call CredentialsRefresh | Call OAuthFlow
  | Call (TokenWrite _) | Call ServiceBuild => True
  | Call _ => False
  | Log _ AuthStarting | Log _ AuthLoadingToken | Log _ AuthRefreshing
  | Log _ AuthOAuthFlow | Log _ AuthSaved | Log _ AuthValid
  | Log _ AuthServiceBuilt | Log _ (AuthFailed _) => True
  | Log _ _ => False
  end.

(** The credentials after [creds.refresh(Request())]. *)
Definition refreshed (c : Credentials) : Credentials :=
  {| valid := true; expired := false; refresh_token := refresh_token c |}.

(** The remote side after a run, seen from before: the directory has only
    been appended to, no message has appeared or gone, and every message has
    its old labels, in place, followed by what was added. *)
Definition only_adds (w w1 : world) : Prop :=
  labels w `prefix_of` labels w1
  ∧ ∀ id,
      match mailbox w !! id with
      | Some ls => ∃ added, mailbox w1 !! id = Some (ls ++ added)
      | None => mailbox w1 !! id = None
      end.

Definition expired_credentials : Credentials :=
  {| valid := false; expired := true; refresh_token := Some "r" |}.

Definition overflow_world : world :=
  {| config_file := ConfigMissing;
     token_file := Some fresh_credentials;
     granted := fresh_credentials;
     labels := [ {| lbl_name := "Alerts"; lbl_id := "Label_1" |} ];
     next_label := 2;
     mailbox := ∅;
     search := λ _, [];
     calendar := λ _ _, None;
     ticks := 0;
     faults := [] |}.

Definition tokenless_world : world :=
  World (config_file demo_world) None (granted demo_world) (labels demo_world)
        (next_label demo_world) (mailbox demo_world) (search demo_world)
        (calendar demo_world) (ticks demo_world) (faults demo_world).

(** A directory in which the name [Alerts] occurs twice. *)
Definition twin_world : world :=
  World (config_file demo_world) (token_file demo_world) (granted demo_world)
        [ {| lbl_name := "Alerts"; lbl_id := "Label_1" |};
          {| lbl_name := "INBOX"; lbl_id := "INBOX" |};
          {| lbl_name := "Alerts"; lbl_id := "Label_7" |} ]
        8 (mailbox demo_world) (search demo_world) (calendar demo_world)
        (ticks demo_world) (faults demo_world).

(** Events of the inner loop over the messages [ids]: fetches and
    modifications of these messages, and log records. *)
Definition loop_event (ids : list string) (e : event) : Prop :=
  match e with
  | Call (MessagesGet id) | Call (MessagesModify id _) => id ∈ ids
  | Call _ => False
  | Log _ _ => True
  end.

(** * Basic facts about the monad *)

Lemma bind_unfold {A B} (m : M A) (k : A → M B) (w : world) :
  (m ≫= k) w =
  match m w with
  | (Ok a, w1, ev1) =>
      match k a w1 with (r, w2, ev2) => (r, w2, ev1 ++ ev2) end
  | (Raise e, w1, ev1) => (Raise e, w1, ev1)
  end.
Proof. reflexivity. Qed.

Lemma bind_ok {A B} (m : M A) (k : A → M B) w a w1 ev1 :
  m w = (Ok a, w1, ev1) →
  (m ≫= k) w = (let '(r, w2, ev2) := k a w1 in (r, w2, ev1 ++ ev2)).
Proof. intros H. rewrite bind_unfold, H. reflexivity. Qed.

Lemma bind_raise {A B} (m : M A) (k : A → M B) w e w1 ev1 :
  m w = (Raise e, w1, ev1) → (m ≫= k) w = (Raise e, w1, ev1).
Proof. intros H. rewrite bind_unfold, H. reflexivity. Qed.

Lemma external_events {A} (c : call) (serve : world → result A * world) w r w1 ev :
  external c serve w = (r, w1, ev) → ev = [Call c].
Proof.
  unfold external. destruct (faults w) as [|[e|] fs]; try destruct (serve _);
    intros [= _ _ <-]; reflexivity.
Qed.

Ltac unfold_monad :=
  unfold mbind, M_bind, mret, M_ret, bind, ret, raise, logging, try_except in *.

(** * The reconciliation loop skips labelled messages (C1) *)

(** C1. When the metadata fetched for a message lists the label id of the
    current rule, the loop body ends after the fetch: the only call is the
    [get], no [modify] is issued, and the message is recorded as already
    labelled. *)
Theorem labelled_message_is_skipped service sender_email label_name label_id
    message w msg w1 ev1 :
  messages_get service (ref_id message) w = (Ok msg, w1, ev1) →
  label_id ∈ default [] (labelIds msg) →
  label_message service sender_email label_name label_id message w =
    (Ok tt, w1,
     [Call (MessagesGet (ref_id message));
      Log INFO (AlreadyLabeled (ref_id message) sender_email label_name)])
  ∧ filter is_modify
      (calls_of (label_message service sender_email label_name label_id
                   message w).2) = [].
Proof.
  intros Hget Hin.
  assert (ev1 = [Call (MessagesGet (ref_id message))]) as ->
    by exact (external_events _ _ _ _ _ _ Hget).
  assert (label_message service sender_email label_name label_id message w =
    (Ok tt, w1,
     [Call (MessagesGet (ref_id message));
      Log INFO (AlreadyLabeled (ref_id message) sender_email label_name)])) as E.
  { unfold label_message. rewrite (bind_ok _ _ _ _ _ _ Hget).
    rewrite bool_decide_eq_false_2 by (intros Hn; exact (Hn Hin)).
    reflexivity. }
  split; [exact E | rewrite E; reflexivity].
Qed.

Lemma labelled_message_is_skipped_witness :
  label_message GmailService "a@x.org" "Alerts" "Label_1"
    {| ref_id := "m2" |} demo_world =
    (Ok tt, step demo_world,
     [Call (MessagesGet "m2");
      Log INFO (AlreadyLabeled "m2" "a@x.org" "Alerts")])
  ∧ filter is_modify
      (calls_of (label_message GmailService "a@x.org" "Alerts" "Label_1"
                   {| ref_id := "m2" |} demo_world).2) = [].
Proof.
  apply (labelled_message_is_skipped GmailService "a@x.org" "Alerts" "Label_1"
           {| ref_id := "m2" |} demo_world
           (response_of "m2" ["INBOX"; "Label_1"]) (step demo_world)
           [Call (MessagesGet "m2")]).
  - vm_compute. reflexivity.
  - vm_compute. apply list_elem_of_In. simpl. tauto.
Defined.

(** * Label resolution *)

(** Resolution lists the labels once and creates at most one label; it
    neither touches nor reads a message. *)
Lemma get_or_create_label_calls service label_name w r w1 ev :
  get_or_create_label service label_name w = (r, w1, ev) →
  (calls_of ev = [LabelsList]
   ∨ calls_of ev = [LabelsList; LabelsCreate (create_body label_name)])
  ∧ mailbox w1 = mailbox w.
Proof.
  unfold get_or_create_label, labels_list, labels_create, external.
  unfold_monad. simpl.
  destruct (faults w) as [|[e|] fs] eqn:Hf; simpl.
  - destruct (label_map_of (labels w) !! label_name); simpl.
    + intros [= <- <- <-]. auto.
    + rewrite Hf. simpl. case_bool_decide; simpl; intros [= <- <- <-]; auto.
  - destruct e; simpl; intros [= <- <- <-]; auto.
  - destruct (label_map_of (labels w) !! label_name); simpl.
    + intros [= <- <- <-]. auto.
    + rewrite Hf. simpl. destruct fs as [|[e|] fs']; simpl.
      * case_bool_decide; simpl; intros [= <- <- <-]; auto.
      * destruct e; simpl; intros [= <- <- <-]; auto.
      * case_bool_decide; simpl; intros [= <- <- <-]; auto.
Qed.

(** What a successful resolution did: it found the name in the listing, or
    it created the label. *)
Lemma get_or_create_label_ok service label_name w label_id w1 ev :
  get_or_create_label service label_name w = (Ok label_id, w1, ev) →
  (label_map_of (labels w) !! label_name = Some label_id
   ∧ w1 = step w
   ∧ ev = [Call LabelsList; Log INFO (LabelExists label_name)])
  ∨ (label_map_of (labels w) !! label_name = None
     ∧ (label_name ∉ lbl_name <$> labels w)
     ∧ label_id = "Label_" +:+ pretty (next_label w)
     ∧ w1 = add_label {| lbl_name := label_name; lbl_id := label_id |}
              (step (step w))
     ∧ ev = [Call LabelsList; Log INFO (LabelCreating label_name);
             Call (LabelsCreate (create_body label_name));
             Log INFO (LabelCreated label_name)]).
Proof.
  unfold get_or_create_label, labels_list, labels_create, external.
  unfold_monad. simpl.
  destruct (faults w) as [|[e|] fs] eqn:Hf; simpl.
  - destruct (label_map_of (labels w) !! label_name); simpl.
    + intros [= <- <- <-]. auto.
    + rewrite Hf. simpl. case_bool_decide; simpl.
      * intros [=].
      * intros [= <- <- <-]. right. auto.
  - destruct e; simpl; intros [=].
  - destruct (label_map_of (labels w) !! label_name); simpl.
    + intros [= <- <- <-]. auto.
    + rewrite Hf. simpl. destruct fs as [|[e|] fs']; simpl.
      * case_bool_decide; simpl; [intros [=]|].
        intros [= <- <- <-]. right. auto.
      * destruct e; simpl; intros [=].
      * case_bool_decide; simpl; [intros [=]|].
        intros [= <- <- <-]. right. auto.
Qed.

(** * A sender without messages (C6) *)

(** C6. When the label resolves and the search for the sender comes back
    without messages, the rule ends normally right after the search: no
    message is fetched or modified, nothing is recorded as labelled, as
    already labelled or as an error, and the mailbox is as before. *)
Theorem no_messages_no_work service days sender_email label_name w label_id w1
    ev1 date resp w2 ev2 :
  get_or_create_label service label_name w = (Ok label_id, w1, ev1) →
  label_id ≠ "" →
  calendar w1 (ticks w1) days = Some date →
  messages_list service (query_of sender_email date) None w1
    = (Ok resp, w2, ev2) →
  default [] (messages resp) = [] →
  let out := label_sender service days (sender_email, label_name) w in
  out = (Ok tt, w2, ev1 ++ ev2 ++ [Log INFO (NoEmailsFound sender_email days)])
  ∧ filter (λ c, (is_get c || is_modify c)%bool) (calls_of out.2) = []
  ∧ (∀ id s n, (Labeled id s n ∉ logs_of out.2)
               ∧ (AlreadyLabeled id s n ∉ logs_of out.2))
  ∧ (∀ m, Log ERROR m ∉ out.2)
  ∧ mailbox out.1.2 = mailbox w.
Proof.
  intros Hres Hne Hdate Hlist Hempty out.
  assert (out = (Ok tt, w2,
            ev1 ++ ev2 ++ [Log INFO (NoEmailsFound sender_email days)])) as E.
  { subst out. unfold label_sender.
    rewrite (bind_ok _ _ _ _ _ _ Hres).
    destruct (decide (label_id = "")) as [|_]; [done|].
    rewrite bind_unfold. unfold date_n_days_ago at 1. rewrite Hdate.
    fold (query_of sender_email date).
    rewrite bind_unfold, Hlist, Hempty. reflexivity. }
  assert (ev2 = [Call (MessagesList (query_of sender_email date) None)]) as ->
    by exact (external_events _ _ _ _ _ _ Hlist).
  assert (mailbox w2 = mailbox w1) as Hmb.
  { revert Hlist. unfold messages_list, external.
    destruct (faults w1) as [|[e|] fs]; simpl;
      try destruct (search w1 _ !! 0%nat); intros [= _ <-]; reflexivity. }
  rewrite E. simpl.
  destruct (get_or_create_label_calls _ _ _ _ _ _ Hres) as [_ Hmb1].
  destruct (get_or_create_label_ok _ _ _ _ _ _ Hres)
    as [(_ & _ & ->)|(_ & _ & _ & _ & ->)]; simpl;
    (split; [reflexivity|]);
    (split; [reflexivity|]);
    (split; [intros; split; intros Hin; repeat (apply elem_of_cons in Hin as [Hin|Hin]; [discriminate|]); by apply elem_of_nil in Hin|]);
    (split; [intros m Hin; repeat (apply elem_of_cons in Hin as [Hin|Hin]; [discriminate|]); by apply elem_of_nil in Hin|]);
    congruence.
Qed.

Lemma no_messages_no_work_witness :
  let out := label_sender GmailService 7 ("a@x.org", "Alerts") quiet_world in
  out = (Ok tt, step (step quiet_world),
         [Call LabelsList; Log INFO (LabelExists "Alerts")] ++
         [Call (MessagesList (query_of "a@x.org" "2024/01/01") None)] ++
         [Log INFO (NoEmailsFound "a@x.org" 7)])
  ∧ filter (λ c, (is_get c || is_modify c)%bool) (calls_of out.2) = []
  ∧ (∀ id s n, (Labeled id s n ∉ logs_of out.2)
               ∧ (AlreadyLabeled id s n ∉ logs_of out.2))
  ∧ (∀ m, Log ERROR m ∉ out.2)
  ∧ mailbox out.1.2 = mailbox quiet_world.
Proof.
  apply (no_messages_no_work GmailService 7 "a@x.org" "Alerts" quiet_world
           "Label_1" (step quiet_world)
           [Call LabelsList; Log INFO (LabelExists "Alerts")] "2024/01/01"
           {| messages := None; nextPageToken := None |}).
  - vm_compute. reflexivity.
  - discriminate.
  - reflexivity.
  - vm_compute. reflexivity.
  - reflexivity.
Defined.

(** * The entry point: configuration checks (C8, C9, C10) *)

Lemma load_config_parsed w c :
  config_file w = ConfigParsed c →
  load_config "config.json" w = (Ok c, w, [Log INFO ConfigLoaded]).
Proof.
  intros H. unfold load_config, read_json. unfold_monad.
  rewrite decide_True by reflexivity. rewrite H. reflexivity.
Qed.

(** C9. With [SENDER_LABELS] missing or empty, [main] returns normally after
    the warning; it makes no external call and leaves the world as it is. *)
Theorem no_sender_labels_clean_exit w c :
  config_file w = ConfigParsed c →
  SENDER_LABELS c = None ∨ SENDER_LABELS c = Some [] →
  main w = (Ok tt, w, [Log INFO ConfigLoaded; Log WARNING NoSenderLabels])
  ∧ calls_of (main w).2 = [].
Proof.
  intros Hc Hs.
  assert (main w = (Ok tt, w, [Log INFO ConfigLoaded; Log WARNING NoSenderLabels])) as E.
  { unfold main. rewrite (bind_ok _ _ _ _ _ _ (load_config_parsed _ _ Hc)).
    destruct Hs as [-> | ->]; reflexivity. }
  rewrite E. auto.
Qed.

Lemma no_sender_labels_clean_exit_witness :
  main (with_config empty_config demo_world) =
    (Ok tt, with_config empty_config demo_world,
     [Log INFO ConfigLoaded; Log WARNING NoSenderLabels])
  ∧ calls_of (main (with_config empty_config demo_world)).2 = [].
Proof.
  apply (no_sender_labels_clean_exit (with_config empty_config demo_world)
           empty_config).
  - reflexivity.
  - right. reflexivity.
Defined.

Lemma main_parsed w c rules days :
  config_file w = ConfigParsed c →
  SENDER_LABELS c = Some rules →
  rules ≠ [] →
  py_int (lookback_string c) = Some days →
  main w = (let '(r, w1, ev) := run rules days w in
            (r, w1, Log INFO ConfigLoaded :: ev)).
Proof.
  intros Hc Hs Hne Hd. unfold main.
  rewrite (bind_ok _ _ _ _ _ _ (load_config_parsed _ _ Hc)).
  rewrite Hs. simpl. destruct rules as [|rule rules]; [done|].
  fold (lookback_string c). unfold int. rewrite Hd.
  unfold run. unfold_monad. simpl.
  destruct (authenticate_gmail w) as [[[service|e] w1] ev1]; [|reflexivity].
  destruct (label_emails _ _ _ _) as [[r w2] ev2]. reflexivity.
Qed.

(** C10. Without [DAYS_TO_LOOK_BACK], or without its ["Days"] entry, the
    look-back string is ["30"], which parses: [main] logs nothing about the
    configuration being invalid and runs with a window of 30 days. *)
Theorem missing_days_defaults_to_30 w c rules :
  config_file w = ConfigParsed c →
  SENDER_LABELS c = Some rules →
  rules ≠ [] →
  DAYS_TO_LOOK_BACK c = None
  ∨ (∃ d, DAYS_TO_LOOK_BACK c = Some d ∧ d !! "Days" = None) →
  lookback_string c = "30"
  ∧ main w = (let '(r, w1, ev) := run rules 30 w in
              (r, w1, Log INFO ConfigLoaded :: ev)).
Proof.
  intros Hc Hs Hne Hd.
  assert (lookback_string c = "30") as E.
  { unfold lookback_string. destruct Hd as [-> | (d & -> & Hd)]; simpl.
    - reflexivity.
    - rewrite Hd. reflexivity. }
  split; [exact E|].
  apply (main_parsed w c rules 30 Hc Hs Hne). rewrite E. reflexivity.
Qed.

Lemma missing_days_defaults_to_30_witness :
  lookback_string config_without_days = "30"
  ∧ main (with_config config_without_days demo_world) =
      (let '(r, w1, ev) :=
         run demo_rules 30 (with_config config_without_days demo_world) in
       (r, w1, Log INFO ConfigLoaded :: ev)).
Proof.
  apply (missing_days_defaults_to_30
           (with_config config_without_days demo_world)
           config_without_days demo_rules).
  - reflexivity.
  - reflexivity.
  - discriminate.
  - left. reflexivity.
Defined.

(** The look-back check of [main] rejects exactly the strings that [int]
    rejects. A negative number passes it: with ["-3"] the script goes on to
    authenticate and to query the mailbox, so "not a non-negative integer"
    is not what stops [main]. *)
Lemma negative_days_reach_the_remote :
  ¬ (∀ w c,
       config_file w = ConfigParsed c →
       (∀ z, py_int (lookback_string c) = Some z → z < 0) →
       calls_of (main w).2 = []).
Proof.
  intros H.
  specialize (H (with_config (config_with_days "-3") demo_world)
                (config_with_days "-3") eq_refl).
  assert (∀ z, py_int (lookback_string (config_with_days "-3")) = Some z → z < 0) as Hz.
  { intros z. vm_compute. intros [= <-]. reflexivity. }
  specialize (H Hz). vm_compute in H. discriminate H.
Qed.

(** C8 (amended). When [int] rejects the look-back string, [main] returns
    after one diagnostic, before any external call and with the world
    untouched; with sender rules present the diagnostic is the error about
    [DAYS_TO_LOOK_BACK]. *)
Theorem unparsable_days_stop_before_any_call w c :
  config_file w = ConfigParsed c →
  py_int (lookback_string c) = None →
  ∃ diagnostic,
    main w = (Ok tt, w, [Log INFO ConfigLoaded; diagnostic])
    ∧ calls_of (main w).2 = []
    ∧ (default [] (SENDER_LABELS c) ≠ [] →
       diagnostic = Log ERROR (InvalidDays (lookback_string c))).
Proof.
  intros Hc Hd.
  destruct (default [] (SENDER_LABELS c)) as [|rule rules] eqn:Hs.
  - exists (Log WARNING NoSenderLabels).
    assert (main w = (Ok tt, w, [Log INFO ConfigLoaded; Log WARNING NoSenderLabels])) as E.
    { unfold main. rewrite (bind_ok _ _ _ _ _ _ (load_config_parsed _ _ Hc)).
      rewrite Hs. reflexivity. }
    rewrite E. repeat split; done.
  - exists (Log ERROR (InvalidDays (lookback_string c))).
    assert (main w = (Ok tt, w, [Log INFO ConfigLoaded;
                                 Log ERROR (InvalidDays (lookback_string c))])) as E.
    { unfold main. rewrite (bind_ok _ _ _ _ _ _ (load_config_parsed _ _ Hc)).
      rewrite Hs. fold (lookback_string c). unfold int. rewrite Hd.
      reflexivity. }
    rewrite E. repeat split; done.
Qed.

Lemma unparsable_days_stop_before_any_call_witness :
  ∃ diagnostic,
    main (with_config (config_with_days "abc") demo_world) =
      (Ok tt, with_config (config_with_days "abc") demo_world,
       [Log INFO ConfigLoaded; diagnostic])
    ∧ calls_of (main (with_config (config_with_days "abc") demo_world)).2 = []
    ∧ (default [] (SENDER_LABELS (config_with_days "abc")) ≠ [] →
       diagnostic = Log ERROR (InvalidDays (lookback_string (config_with_days "abc")))).
Proof.
  apply (unparsable_days_stop_before_any_call
           (with_config (config_with_days "abc") demo_world)
           (config_with_days "abc")).
  - reflexivity.
  - vm_compute. reflexivity.
Defined.

(** * Errors of the remote service (C3) *)

Lemma for_each_app {A} (xs ys : list A) (body : A → M unit) w :
  for_each (xs ++ ys) body w =
  match for_each xs body w with
  | (Ok _, w1, ev1) =>
      match for_each ys body w1 with (r, w2, ev2) => (r, w2, ev1 ++ ev2) end
  | (Raise e, w1, ev1) => (Raise e, w1, ev1)
  end.
Proof.
  revert w. induction xs as [|x xs IH]; intros w; simpl.
  - unfold_monad. destruct (for_each ys body w) as [[r w2] ev2]. reflexivity.
  - rewrite !bind_unfold. destruct (body x w) as [[[[]|e] w1] ev1]; [|reflexivity].
    rewrite IH. destruct (for_each xs body w1) as [[[[]|e] w2] ev2]; [|reflexivity].
    destruct (for_each ys body w2) as [[r w3] ev3]. by rewrite (assoc_L (++)).
Qed.

(** The claim that a failing rule is dropped and the run goes on with the
    rules after it does not hold: in the demo world, a failing fetch of the
    first message ends the run; the second rule is never started. *)
Lemma failing_rule_stops_the_rest :
  ¬ (∀ service days rule rest w w1 ev1,
       label_sender service days rule w = (Raise HttpError, w1, ev1) →
       ∃ ev,
         (label_emails service (rule :: rest) days w).2 =
           ev1 ++ ev ++ (label_emails service rest days w1).2).
Proof.
  intros H.
  destruct (H GmailService 7 ("a@x.org", "Alerts") [("b@x.org", "Bills")]
              (with_faults [None; None; Some HttpError] demo_world)
              (with_faults [] (step (step (step demo_world))))
              [Call LabelsList; Log INFO (LabelExists "Alerts");
               Call (MessagesList "from:a@x.org after:2024/01/01" None);
               Call (MessagesGet "m1")])
    as [ev Hev].
  { vm_compute. reflexivity. }
  vm_compute in Hev. injection Hev as Hev.
  destruct ev as [|e [|e' ev]]; discriminate Hev.
Qed.

(** C3 (amended). An [HttpError] that escapes the processing of one rule,
    whichever call raised it, is caught once, around the whole loop:
    [label_emails] logs it and returns normally in the world the failure
    left, and the events of the run end there, so that neither the rest of
    the failing rule nor any later rule is processed. *)
Theorem http_error_ends_the_loop service days done rule rest w w1 ev1 w2 ev2 :
  for_each done (label_sender service days) w = (Ok tt, w1, ev1) →
  label_sender service days rule w1 = (Raise HttpError, w2, ev2) →
  label_emails service (done ++ rule :: rest) days w =
    (Ok tt, w2, ev1 ++ ev2 ++ [Log ERROR ErrorOccurred]).
Proof.
  intros Hdone Hrule. unfold label_emails, try_except.
  rewrite for_each_app, Hdone. simpl for_each.
  rewrite (bind_raise _ _ _ _ _ _ Hrule). unfold logging.
  by rewrite (assoc_L (++)).
Qed.

Lemma http_error_ends_the_loop_witness :
  label_emails GmailService ([] ++ ("a@x.org", "Alerts") :: [("b@x.org", "Bills")])
    7 (with_faults [None; None; Some HttpError] demo_world) =
    (Ok tt, with_faults [] (step (step (step demo_world))),
     [] ++ [Call LabelsList; Log INFO (LabelExists "Alerts");
            Call (MessagesList "from:a@x.org after:2024/01/01" None);
            Call (MessagesGet "m1")] ++ [Log ERROR ErrorOccurred]).
Proof.
  apply (http_error_ends_the_loop GmailService 7 [] ("a@x.org", "Alerts")
           [("b@x.org", "Bills")]
           (with_faults [None; None; Some HttpError] demo_world)
           (with_faults [None; None; Some HttpError] demo_world) []).
  - reflexivity.
  - vm_compute. reflexivity.
Defined.

(** * Events of a computation *)

Section emits.

Context (P : event → Prop).

Lemma emits_ret {A} (a : A) : emits P (mret a).
Proof. intros w r w1 ev [= _ _ <-]. constructor. Qed.

Lemma emits_raise {A} (e : exn) : emits P (@raise A e).
Proof. intros w r w1 ev [= _ _ <-]. constructor. Qed.

Lemma emits_logging lvl m : P (Log lvl m) → emits P (logging lvl m).
Proof. intros H w r w1 ev [= _ _ <-]. repeat constructor. exact H. Qed.

Lemma emits_external {A} c (serve : world → result A * world) :
  P (Call c) → emits P (external c serve).
Proof.
  intros H w r w1 ev Hrun. rewrite (external_events _ _ _ _ _ _ Hrun).
  repeat constructor. exact H.
Qed.

Lemma emits_bind {A B} (m : M A) (k : A → M B) :
  emits P m → (∀ a, emits P (k a)) → emits P (m ≫= k).
Proof.
  intros Hm Hk w r w2 ev. rewrite bind_unfold.
  destruct (m w) as [[[a|e] w1] ev1] eqn:E1.
  - destruct (k a w1) as [[r' w2'] ev2] eqn:E2. intros [= _ _ <-].
    apply Forall_app. split; [exact (Hm _ _ _ _ E1) | exact (Hk _ _ _ _ _ E2)].
  - intros [= _ _ <-]. exact (Hm _ _ _ _ E1).
Qed.

Lemma emits_try_except {A} (body : M A) (handler : exn → M A) :
  emits P body → (∀ e, emits P (handler e)) → emits P (try_except body handler).
Proof.
  intros Hm Hk w r w2 ev. unfold try_except.
  destruct (body w) as [[[a|e] w1] ev1] eqn:E1.
  - intros [= _ _ <-]. exact (Hm _ _ _ _ E1).
  - destruct (handler e w1) as [[r' w2'] ev2] eqn:E2. intros [= _ _ <-].
    apply Forall_app. split; [exact (Hm _ _ _ _ E1) | exact (Hk _ _ _ _ _ E2)].
Qed.

Lemma emits_for_each {A} (xs : list A) (body : A → M unit) :
  (∀ x, emits P (body x)) → emits P (for_each xs body).
Proof.
  intros H. induction xs as [|x xs IH]; simpl.
  - apply emits_ret.
  - apply emits_bind; [apply H | intros _; exact IH].
Qed.

Lemma emits_date days : emits P (date_n_days_ago days).
Proof.
  intros w r w1 ev. unfold date_n_days_ago.
  destruct (calendar w (ticks w) days); intros [= _ _ <-]; constructor.
Qed.

End emits.

Lemma label_sender_unfold service days sender_email label_name :
  label_sender service days (sender_email, label_name) =
  (label_id ← get_or_create_label service label_name;
   search_and_label service days sender_email label_name label_id).
Proof. reflexivity. Qed.

Lemma label_message_emits service sender_email label_name label_id message :
  emits (rule_event label_id)
    (label_message service sender_email label_name label_id message).
Proof.
  unfold label_message. apply emits_bind; [by apply emits_external|].
  intros msg. case_bool_decide.
  - apply emits_bind; [by apply emits_external|].
    intros _. by apply emits_logging.
  - by apply emits_logging.
Qed.

Lemma search_and_label_emits service days sender_email label_name label_id :
  emits (rule_event label_id)
    (search_and_label service days sender_email label_name label_id).
Proof.
  unfold search_and_label. case_decide; [by apply emits_logging|].
  apply emits_bind; [apply emits_date|]. intros date.
  apply emits_bind; [by apply emits_external|]. intros results.
  destruct (default [] (messages results)) as [|m ms] eqn:E.
  - by apply emits_logging.
  - apply emits_for_each. intros x. apply label_message_emits.
Qed.

(** * One iteration of the inner loop *)

Lemma filter_not_in_nil (ls : list string) :
  filter (λ l, l ∉ @nil string) ls = ls.
Proof.
  induction ls as [|l ls IH]; [done|].
  rewrite filter_cons_True by apply not_elem_of_nil. by rewrite IH.
Qed.

(** On the remote side, a body that only adds [label_id] keeps every label
    of the message, in place, and appends [label_id] when it is new. *)
Lemma modify_labels_add_only label_id ls :
  modify_labels (add_only label_id) ls =
  if decide (label_id ∈ ls) then ls else ls ++ [label_id].
Proof.
  unfold modify_labels, add_only. cbn [body_get].
  rewrite decide_False by discriminate. rewrite decide_True by reflexivity.
  rewrite filter_not_in_nil. cbn [remove_dups].
  destruct (decide_rel elem_of label_id []) as [Hnil|_];
    [by apply elem_of_nil in Hnil|].
  destruct (decide (label_id ∈ ls)) as [Hin|Hin].
  - rewrite filter_cons_False by (intros Hn; exact (Hn Hin)).
    by rewrite filter_nil, app_nil_r.
  - by rewrite filter_cons_True, filter_nil.
Qed.

Lemma default_labelIds id ls : default [] (labelIds (response_of id ls)) = ls.
Proof. by destruct ls. Qed.

#[local] Arguments response_of : simpl never.

#[local] Arguments modify_labels : simpl never.

Lemma label_message_outcome service sender_email label_name label_id message
    w r w1 ev :
  label_message service sender_email label_name label_id message w
    = (r, w1, ev) →
  message_outcome label_id (ref_id message) sender_email label_name w r w1 ev.
Proof.
  unfold label_message, messages_get, messages_modify, external.
  unfold_monad. fold (add_only label_id).
  destruct (faults w) as [|[e|] fs] eqn:Hf; simpl.
  - destruct (mailbox w !! ref_id message) as [ls|] eqn:Hm; simpl.
    + assert (default [] match ls with [] => None | _ :: _ => Some ls end = ls)
        as -> by (by destruct ls).
      case_bool_decide as Hin; simpl.
      * rewrite Hf, Hm. simpl. rewrite modify_labels_add_only.
        rewrite decide_False by done.
        intros [= <- <- <-]. by eapply newly_labelled.
      * intros [= <- <- <-]. eapply already_labelled; [done|].
        by destruct (decide (label_id ∈ ls)).
    + intros [= <- <- <-]. constructor. by right.
  - intros [= <- <- <-]. constructor. left. by rewrite Hf.
  - destruct (mailbox w !! ref_id message) as [ls|] eqn:Hm; simpl.
    + assert (default [] match ls with [] => None | _ :: _ => Some ls end = ls)
        as -> by (by destruct ls).
      case_bool_decide as Hin; simpl.
      * rewrite Hf. simpl. destruct fs as [|[e|] fs']; simpl.
        -- rewrite Hm. simpl. rewrite modify_labels_add_only.
           rewrite decide_False by done.
           intros [= <- <- <-]. by eapply newly_labelled.
        -- intros [= <- <- <-]. eapply modify_failed; [done..|by rewrite Hf].
        -- rewrite Hm. simpl. rewrite modify_labels_add_only.
           rewrite decide_False by done.
           intros [= <- <- <-]. by eapply newly_labelled.
      * intros [= <- <- <-]. eapply already_labelled; [done|].
        by destruct (decide (label_id ∈ ls)).
    + intros [= <- <- <-]. constructor. by right.
Qed.

Lemma call_in_calls_of c ev : Call c ∈ ev ↔ c ∈ calls_of ev.
Proof.
  unfold calls_of. rewrite list_elem_of_omap. split.
  - intros H. exists (Call c). auto.
  - intros ([c'|lvl m] & Hin & [= ->]). exact Hin.
Qed.

Lemma calls_of_app ev1 ev2 : calls_of (ev1 ++ ev2) = calls_of ev1 ++ calls_of ev2.
Proof. apply omap_app. Qed.

(** ** What the loops do to the mailbox *)

Lemma touched_refl label_id w w1 :
  mailbox w1 = mailbox w → touched label_id w w1.
Proof. intros E id. left. by rewrite E. Qed.

Lemma touched_trans label_id w w1 w2 :
  touched label_id w w1 → touched label_id w1 w2 → touched label_id w w2.
Proof.
  intros H1 H2 id. destruct (H1 id) as [E1|(ls & Hw & Hn & Hw1)].
  - destruct (H2 id) as [E2|(ls & Hw1 & Hn & Hw2)].
    + left. congruence.
    + right. exists ls. rewrite <- E1. auto.
  - destruct (H2 id) as [E2|(ls' & Hw1' & Hn' & Hw2)].
    + right. exists ls. rewrite E2. auto.
    + exfalso. rewrite Hw1 in Hw1'. injection Hw1' as <-.
      apply Hn'. apply elem_of_app. right. by apply list_elem_of_singleton.
Qed.

Lemma label_message_touched service sender_email label_name label_id message
    w r w1 ev :
  label_message service sender_email label_name label_id message w
    = (r, w1, ev) →
  labels w1 = labels w ∧ search w1 = search w ∧ calendar w1 = calendar w
  ∧ touched label_id w w1.
Proof.
  intros H. apply label_message_outcome in H.
  destruct H as [e He|ls Hm Hin|ls e Hm Hin He|ls Hm Hin];
    (split; [done|]); (split; [done|]); (split; [done|]);
    try by apply touched_refl.
  intros id. destruct (decide (id = ref_id message)) as [->|Hne].
  - right. exists ls. simpl. by rewrite lookup_insert_eq.
  - left. simpl. by rewrite lookup_insert_ne.
Qed.

Lemma inner_loop_touched service sender_email label_name label_id msgs
    w r w1 ev :
  for_each msgs (label_message service sender_email label_name label_id) w
    = (r, w1, ev) →
  labels w1 = labels w ∧ search w1 = search w ∧ calendar w1 = calendar w
  ∧ touched label_id w w1.
Proof.
  revert w r w1 ev. induction msgs as [|m msgs IH]; intros w r w1 ev; simpl.
  - intros [= _ <- _]. repeat split; try done. by apply touched_refl.
  - rewrite bind_unfold.
    destruct (label_message _ _ _ _ m w) as [[[[]|e] w0] ev0] eqn:E0;
      apply label_message_touched in E0 as (El & Es & Ec & Ht).
    + destruct (for_each msgs _ w0) as [[r' w2] ev2] eqn:E2.
      apply IH in E2 as (El2 & Es2 & Ec2 & Ht2). intros [= _ <- _].
      repeat split; try congruence. by eapply touched_trans.
    + intros [= _ <- _]. auto.
Qed.

Lemma messages_list_run service q w r w1 ev :
  messages_list service q None w = (r, w1, ev) →
  w1 = step w
  ∧ (∀ resp, r = Ok resp →
       default [] (messages resp) =
         Build_message_ref <$> default [] (search w q !! 0%nat)).
Proof.
  unfold messages_list, external.
  destruct (faults w) as [|[e|] fs]; simpl;
    try (destruct (search w q !! 0%nat) as [[|id page]|];
         intros [= <- <- _]; (split; [done|]); by intros resp [= <-]).
Qed.

Lemma search_and_label_touched service days sender_email label_name label_id
    w r w1 ev :
  search_and_label service days sender_email label_name label_id w
    = (r, w1, ev) →
  labels w1 = labels w ∧ search w1 = search w ∧ calendar w1 = calendar w
  ∧ touched label_id w w1.
Proof.
  unfold search_and_label. case_decide.
  { intros [= _ <- _]. repeat split; try done. by apply touched_refl. }
  rewrite bind_unfold. unfold date_n_days_ago at 1.
  destruct (calendar w (ticks w) days) as [date|].
  2:{ intros [= _ <- _]. repeat split; try done. by apply touched_refl. }
  rewrite bind_unfold.
  destruct (messages_list _ _ None w) as [[[resp|e] w0] ev0] eqn:E0;
    apply messages_list_run in E0 as [-> _].
  2:{ intros [= _ <- _]. repeat split; try done. by apply touched_refl. }
  destruct (default [] (messages resp)) as [|m ms].
  { intros [= _ <- _]. repeat split; try done. by apply touched_refl. }
  destruct (for_each _ _ _) as [[r' w2] ev2] eqn:E2. intros [= _ <- _].
  apply inner_loop_touched in E2 as (El & Es & Ec & Ht). auto.
Qed.

(** * Every mutation adds the resolved label and nothing else (C5) *)

(** C5. While a rule is processed, every [modify] request carries the body
    [{"addLabelIds": [label_id]}] with the id that label resolution returned
    for the rule, and nothing else; accordingly every message of the mailbox
    either keeps its list of labels or has that id appended to it. *)
Theorem modify_adds_only_the_resolved_label service days sender_email
    label_name w r w2 ev :
  label_sender service days (sender_email, label_name) w = (r, w2, ev) →
  (∀ id body, Call (MessagesModify id body) ∈ ev →
     ∃ label_id w1 ev1,
       get_or_create_label service label_name w = (Ok label_id, w1, ev1)
       ∧ body = [("addLabelIds", [label_id])])
  ∧ (∀ id,
       mailbox w2 !! id = mailbox w !! id
       ∨ ∃ label_id w1 ev1 ls,
           get_or_create_label service label_name w = (Ok label_id, w1, ev1)
           ∧ mailbox w !! id = Some ls ∧ (label_id ∉ ls)
           ∧ mailbox w2 !! id = Some (ls ++ [label_id])).
Proof.
  rewrite label_sender_unfold, bind_unfold.
  destruct (get_or_create_label service label_name w)
    as [[[label_id|e] w1] ev1] eqn:E1;
    pose proof (get_or_create_label_calls _ _ _ _ _ _ E1) as [Hcalls Hmb].
  - destruct (search_and_label _ _ _ _ label_id w1) as [[r' w2'] ev2] eqn:E2.
    intros [= _ <- <-].
    pose proof (search_and_label_emits _ _ _ _ _ _ _ _ _ E2) as Hev.
    apply search_and_label_touched in E2 as (_ & _ & _ & Ht).
    split.
    + intros id body Hin. exists label_id, w1, ev1. split; [done|].
      apply elem_of_app in Hin as [Hin|Hin].
      * apply call_in_calls_of in Hin.
        destruct Hcalls as [Hc|Hc]; rewrite Hc in Hin;
          repeat (apply elem_of_cons in Hin as [Hin|Hin]; [discriminate|]);
          by apply elem_of_nil in Hin.
      * rewrite Forall_forall in Hev. exact (Hev _ Hin).
    + intros id. destruct (Ht id) as [E|(ls & Hw & Hn & Hw2)].
      * left. congruence.
      * right. exists label_id, w1, ev1, ls. rewrite <- Hmb. auto.
  - intros [= _ <- <-]. split.
    + intros id body Hin. apply call_in_calls_of in Hin.
      destruct Hcalls as [Hc|Hc]; rewrite Hc in Hin;
        repeat (apply elem_of_cons in Hin as [Hin|Hin]; [discriminate|]);
        by apply elem_of_nil in Hin.
    + intros id. left. by rewrite Hmb.
Qed.

Lemma modify_adds_only_the_resolved_label_witness :
  let out := label_sender GmailService 7 ("a@x.org", "Alerts") demo_world in
  (∀ id body, Call (MessagesModify id body) ∈ out.2 →
     ∃ label_id w1 ev1,
       get_or_create_label GmailService "Alerts" demo_world
         = (Ok label_id, w1, ev1)
       ∧ body = [("addLabelIds", [label_id])])
  ∧ (∀ id,
       mailbox out.1.2 !! id = mailbox demo_world !! id
       ∨ ∃ label_id w1 ev1 ls,
           get_or_create_label GmailService "Alerts" demo_world
             = (Ok label_id, w1, ev1)
           ∧ mailbox demo_world !! id = Some ls ∧ (label_id ∉ ls)
           ∧ mailbox out.1.2 !! id = Some (ls ++ [label_id])).
Proof.
  intros out.
  apply (modify_adds_only_the_resolved_label GmailService 7 "a@x.org" "Alerts"
           demo_world out.1.1 out.1.2 out.2).
  vm_compute. reflexivity.
Defined.

(** * How often the label list is fetched (C4) *)

Lemma list_calls_app ev1 ev2 :
  list_calls (ev1 ++ ev2) = (list_calls ev1 + list_calls ev2)%nat.
Proof. unfold list_calls. by rewrite calls_of_app, filter_app, length_app. Qed.

Lemma rule_events_no_listing label_id ev :
  Forall (rule_event label_id) ev → list_calls ev = 0%nat.
Proof.
  induction 1 as [|e ev He _ IH]; [done|].
  change (e :: ev) with ([e] ++ ev). rewrite list_calls_app, IH.
  by destruct e as [[]|].
Qed.

(** No cache is kept between resolutions: each one begins by listing the
    labels, and a rule contains exactly one resolution. *)
Lemma label_sender_lists_once service days rule w r w1 ev :
  label_sender service days rule w = (r, w1, ev) → list_calls ev = 1%nat.
Proof.
  destruct rule as [sender_email label_name].
  rewrite label_sender_unfold, bind_unfold.
  destruct (get_or_create_label service label_name w)
    as [[[label_id|e] w0] ev0] eqn:E0;
    pose proof (get_or_create_label_calls _ _ _ _ _ _ E0) as [Hcalls _];
    assert (list_calls ev0 = 1%nat) as H0
      by (unfold list_calls; by destruct Hcalls as [-> | ->]).
  - destruct (search_and_label _ _ _ _ label_id w0) as [[r' w2] ev2] eqn:E2.
    intros [= _ _ <-]. rewrite list_calls_app, H0.
    by rewrite (rule_events_no_listing label_id ev2)
      by exact (search_and_label_emits _ _ _ _ _ _ _ _ _ E2).
  - by intros [= _ _ <-].
Qed.

Lemma outer_loop_lists service days rules w r w1 ev :
  for_each rules (label_sender service days) w = (r, w1, ev) →
  (list_calls ev ≤ length rules)%nat
  ∧ (r = Ok tt → list_calls ev = length rules).
Proof.
  revert w r w1 ev. induction rules as [|rule rules IH]; intros w r w1 ev; simpl.
  - intros [= _ _ <-]. auto.
  - rewrite bind_unfold.
    destruct (label_sender service days rule w) as [[[[]|e] w0] ev0] eqn:E0;
      apply label_sender_lists_once in E0.
    + destruct (for_each rules _ w0) as [[r' w2] ev2] eqn:E2.
      apply IH in E2 as [Hle Heq]. intros [= <- _ <-].
      rewrite list_calls_app, E0. split; [lia|]. intros Hr. by rewrite Heq.
    + intros [= <- _ <-]. rewrite E0. split; [lia|done].
Qed.

(** The label list is not fetched at most once per run: the demo run, with
    two rules, lists the labels twice. *)
Lemma label_list_fetched_twice :
  ¬ (∀ service rules days w,
       (list_calls (label_emails service rules days w).2 ≤ 1)%nat).
Proof.
  intros H. specialize (H GmailService demo_rules 7 demo_world).
  vm_compute in H. lia.
Qed.

(** C4 (amended). Label resolution keeps no cache: every call of
    [get_or_create_label] lists the remote labels once, whatever was
    resolved before, and so a run that goes through all its rules without an
    error lists them once per rule, rules that repeat a label name
    included. *)
Theorem label_list_fetched_once_per_rule service rules days w w1 ev :
  label_emails service rules days w = (Ok tt, w1, ev) →
  Log ERROR ErrorOccurred ∉ ev →
  list_calls ev = length rules
  ∧ ∀ label_name w0,
      list_calls (get_or_create_label service label_name w0).2 = 1%nat.
Proof.
  intros Hrun Hlog. split.
  - revert Hrun. unfold label_emails, try_except.
    destruct (for_each rules _ w) as [[[[]|e] w0] ev0] eqn:E0.
    + intros [= _ <-]. by apply outer_loop_lists in E0 as [_ ->].
    + destruct e; try (intros [=]; fail). unfold logging. intros [= _ <-].
      exfalso. apply Hlog. apply elem_of_app. right.
      by apply list_elem_of_singleton.
  - intros label_name w0.
    destruct (get_or_create_label service label_name w0) as [[r' w2] ev2] eqn:E.
    apply get_or_create_label_calls in E as [Hcalls _]. unfold list_calls.
    simpl. by destruct Hcalls as [-> | ->].
Qed.

Lemma label_list_fetched_once_per_rule_witness :
  list_calls (label_emails GmailService same_label_rules 7 demo_world).2
    = length same_label_rules
  ∧ ∀ label_name w0,
      list_calls (get_or_create_label GmailService label_name w0).2 = 1%nat.
Proof.
  apply (label_list_fetched_once_per_rule GmailService same_label_rules 7
           demo_world
           (label_emails GmailService same_label_rules 7 demo_world).1.2).
  - vm_compute. reflexivity.
  - vm_compute. intros Hin.
    repeat (apply elem_of_cons in Hin as [Hin|Hin]; [discriminate|]).
    by apply elem_of_nil in Hin.
Defined.

(** * Result pages of the search (C7) *)

Lemma label_emails_first_page_requests service rules days :
  emits first_page_request (label_emails service rules days).
Proof.
  unfold label_emails. apply emits_try_except.
  - apply emits_for_each. intros [sender_email label_name].
    rewrite label_sender_unfold. apply emits_bind.
    + unfold get_or_create_label. apply emits_try_except.
      * apply emits_bind; [by apply emits_external|]. intros labels.
        destruct (label_map_of labels !! label_name).
        -- apply emits_bind; [by apply emits_logging|]. intros _.
           apply emits_ret.
        -- apply emits_bind; [by apply emits_logging|]. intros _.
           apply emits_bind; [by apply emits_external|]. intros label.
           apply emits_bind; [by apply emits_logging|]. intros _.
           apply emits_ret.
      * intros []; try apply emits_raise.
        apply emits_bind; [by apply emits_logging|]. intros _.
        apply emits_raise.
    + intros label_id w r w1 ev Hrun.
      apply search_and_label_emits in Hrun.
      eapply Forall_impl; [exact Hrun|]. by intros [[]|].
  - intros []; try apply emits_raise. by apply emits_logging.
Qed.

(** C7 (the code at a failing input). The search for the sender answers with
    the first page and a continuation token; the second page holds [m2]. The
    run issues the one list request, labels [m1], and ends: no request
    carries the token, [m2] is never fetched and stays without the label. *)
Theorem second_page_is_never_requested :
  let q := "from:a@x.org after:2024/01/01" in
  let out := label_emails GmailService [("a@x.org", "Alerts")] 7 paged_world in
  (messages_list GmailService q None paged_world).1.1 =
    Ok {| messages := Some [ {| ref_id := "m1" |} ]; nextPageToken := Some 1%nat |}
  ∧ (messages_list GmailService q (Some 1%nat) paged_world).1.1 =
    Ok {| messages := Some [ {| ref_id := "m2" |} ]; nextPageToken := None |}
  ∧ out.1.1 = Ok tt
  ∧ calls_of out.2 =
      [LabelsList; MessagesList q None; MessagesGet "m1";
       MessagesModify "m1" [("addLabelIds", ["Label_1"])]]
  ∧ mailbox out.1.2 !! "m1" = Some ["INBOX"; "Label_1"]
  ∧ mailbox out.1.2 !! "m2" = Some ["INBOX"].
Proof. vm_compute. repeat split; reflexivity. Qed.

(** * A second pass finds nothing to do (C2) *)

Lemma grows_refl w w1 : same_remote w w1 → grows w w1.
Proof.
  intros (El & Em & Es & Ec). unfold grows, carries. rewrite El, Em. auto.
Qed.

Lemma grows_trans w w1 w2 : grows w w1 → grows w1 w2 → grows w w2.
Proof.
  intros (Es & Ec & Hl & Hm) (Es' & Ec' & Hl' & Hm').
  repeat split; try congruence; auto.
Qed.

Lemma same_remote_refl w : same_remote w w.
Proof. by repeat split. Qed.

Lemma same_remote_step w : same_remote w (step w).
Proof. by repeat split. Qed.

Lemma same_remote_trans w w1 w2 :
  same_remote w w1 → same_remote w1 w2 → same_remote w w2.
Proof.
  intros (El & Em & Es & Ec) (El' & Em' & Es' & Ec').
  repeat split; congruence.
Qed.

Lemma settled_grows date w w1 rule :
  grows w w1 → settled date w rule → settled date w1 rule.
Proof.
  intros (Es & Ec & Hl & Hm) (l & Hres & Hall). exists l. split; [auto|].
  intros Hne id Hin. apply Hm. apply Hall; [done|].
  unfold page in *. by rewrite <- Es.
Qed.

Lemma touched_carries label_id w w1 l id :
  touched label_id w w1 → carries w l id → carries w1 l id.
Proof.
  intros Ht (ls & Hm & Hin). destruct (Ht id) as [E|(ls' & Hw & _ & Hw1)].
  - exists ls. by rewrite E.
  - exists (ls' ++ [label_id]). split; [done|].
    rewrite Hm in Hw. injection Hw as <-. apply elem_of_app. by left.
Qed.

Lemma label_map_of_snoc labels l :
  label_map_of (labels ++ [l]) = <[lbl_name l := lbl_id l]> (label_map_of labels).
Proof. unfold label_map_of. by rewrite foldl_app. Qed.

(** ** The first pass settles its rules *)

Lemma get_or_create_label_grows service label_name w label_id w1 ev :
  get_or_create_label service label_name w = (Ok label_id, w1, ev) →
  grows w w1 ∧ mailbox w1 = mailbox w
  ∧ label_map_of (labels w1) !! label_name = Some label_id.
Proof.
  intros H. apply get_or_create_label_ok in H
    as [(Hres & -> & _)|(Hnone & _ & _ & -> & _)].
  - split; [apply grows_refl, same_remote_step|]. auto.
  - split; [|split; [done|]].
    + repeat split; try done. intros n l Hn. simpl.
      rewrite label_map_of_snoc. simpl. rewrite lookup_insert_ne; [done|].
      intros <-. congruence.
    + simpl. rewrite label_map_of_snoc. simpl. apply lookup_insert_eq.
Qed.

Lemma inner_loop_labels_all service sender_email label_name label_id msgs
    w w1 ev :
  for_each msgs (label_message service sender_email label_name label_id) w
    = (Ok tt, w1, ev) →
  ∀ m, m ∈ msgs → carries w1 label_id (ref_id m).
Proof.
  revert w w1 ev. induction msgs as [|m msgs IH]; intros w w1 ev; simpl.
  - intros _ m Hin. by apply elem_of_nil in Hin.
  - rewrite bind_unfold.
    destruct (label_message _ _ _ _ m w) as [[[[]|e] w0] ev0] eqn:E0; [|done].
    destruct (for_each msgs _ w0) as [[r' w2] ev2] eqn:E2.
    intros [= -> <- _] m' Hin. apply elem_of_cons in Hin as [->|Hin].
    + pose proof (inner_loop_touched _ _ _ _ _ _ _ _ _ E2) as (_ & _ & _ & Ht).
      apply (touched_carries _ _ _ _ _ Ht).
      apply label_message_outcome in E0. inversion E0; subst.
      * by exists ls.
      * exists (ls ++ [label_id]). simpl. rewrite lookup_insert_eq.
        split; [done|]. apply elem_of_app. right.
        by apply list_elem_of_singleton.
    + by eapply IH.
Qed.

Lemma touched_grows label_id w w1 :
  labels w1 = labels w → search w1 = search w → calendar w1 = calendar w →
  touched label_id w w1 → grows w w1.
Proof.
  intros El Es Ec Ht. repeat split; try done.
  - by rewrite El.
  - intros l id. by apply touched_carries with label_id.
Qed.

Lemma steady_grows days date w w1 :
  grows w w1 → steady days date w → steady days date w1.
Proof. intros (_ & Ec & _) H t. by rewrite Ec. Qed.

Lemma search_and_label_settles service days date sender_email label_name
    label_id w w1 ev :
  steady days date w →
  search_and_label service days sender_email label_name label_id w
    = (Ok tt, w1, ev) →
  label_id ≠ "" → ∀ id, id ∈ page w sender_email date → carries w1 label_id id.
Proof.
  intros Hdate Hrun Hne id Hin. revert Hrun.
  unfold search_and_label. rewrite decide_False by done.
  rewrite bind_unfold. unfold date_n_days_ago at 1. rewrite Hdate.
  fold (query_of sender_email date). rewrite bind_unfold.
  destruct (messages_list _ _ None w) as [[[resp|e] w0] ev0] eqn:E0; [|done].
  apply messages_list_run in E0 as [-> Hresp].
  rewrite (Hresp resp eq_refl). fold (page w sender_email date).
  destruct (page w sender_email date) as [|id0 ids] eqn:Hpage;
    [by apply elem_of_nil in Hin|].
  rewrite <- Hpage in *. clear Hpage.
  destruct (Build_message_ref <$> page w sender_email date) as [|m ms] eqn:Hms.
  { apply (f_equal length) in Hms. rewrite length_fmap in Hms.
    destruct (page w sender_email date); [by apply elem_of_nil in Hin|done]. }
  rewrite <- Hms.
  destruct (for_each _ _ (step w)) as [[r' w2] ev2] eqn:E2.
  intros [= -> <- _].
  apply (inner_loop_labels_all _ _ _ _ _ _ _ _ E2 {| ref_id := id |}).
  apply list_elem_of_fmap. by exists id.
Qed.

Lemma label_sender_settles service days date rule w w1 ev :
  steady days date w →
  label_sender service days rule w = (Ok tt, w1, ev) →
  grows w w1 ∧ settled date w1 rule.
Proof.
  destruct rule as [sender_email label_name]. intros Hdate.
  rewrite label_sender_unfold, bind_unfold.
  destruct (get_or_create_label service label_name w)
    as [[[label_id|e] w0] ev0] eqn:E0; [|done].
  apply get_or_create_label_grows in E0 as (Hg & _ & Hres).
  destruct (search_and_label _ _ _ _ label_id w0) as [[r' w2] ev2] eqn:E2.
  intros [= -> <- _].
  pose proof (search_and_label_touched _ _ _ _ _ _ _ _ _ E2)
    as (El & Es & Ec & Ht).
  pose proof (touched_grows _ _ _ El Es Ec Ht) as Hg2.
  split; [by eapply grows_trans|].
  exists label_id. simpl. rewrite El. split; [done|].
  intros Hne id Hin.
  apply (search_and_label_settles _ _ date _ _ _ _ _ _
           (steady_grows _ _ _ _ Hg Hdate) E2 Hne).
  unfold page in *. by rewrite <- Es.
Qed.

Lemma outer_loop_settles service days date rules w w1 ev :
  steady days date w →
  for_each rules (label_sender service days) w = (Ok tt, w1, ev) →
  grows w w1 ∧ Forall (settled date w1) rules.
Proof.
  revert w w1 ev. induction rules as [|rule rules IH]; intros w w1 ev Hdate; simpl.
  - intros [= <- _]. split; [apply grows_refl, same_remote_refl|constructor].
  - rewrite bind_unfold.
    destruct (label_sender service days rule w) as [[[[]|e] w0] ev0] eqn:E0;
      [|done].
    apply (label_sender_settles _ _ date) in E0 as [Hg Hs]; [|done].
    destruct (for_each rules _ w0) as [[r' w2] ev2] eqn:E2.
    intros [= -> <- _].
    apply IH in E2 as [Hg2 Hall]; [|by eapply steady_grows].
    split; [by eapply grows_trans|]. constructor; [|done].
    by eapply settled_grows.
Qed.

(** ** The second pass *)

Lemma label_message_idle service sender_email label_name label_id message
    w r w1 ev :
  carries w label_id (ref_id message) →
  label_message service sender_email label_name label_id message w
    = (r, w1, ev) →
  w1 = step w ∧ Forall idle_event ev
  ∧ (faults w = [] →
     r = Ok tt
     ∧ Log INFO (AlreadyLabeled (ref_id message) sender_email label_name) ∈ ev).
Proof.
  intros (ls & Hm & Hin) H. apply label_message_outcome in H.
  destruct H as [e He|ls' Hm' Hin'|ls' e Hm' Hin' He|ls' Hm' Hin'];
    try (exfalso; rewrite Hm in Hm'; injection Hm' as <-; by apply Hin').
  - split; [done|]. split; [by repeat constructor|].
    intros Hf. exfalso. destruct He as [He|[He _]].
    + by rewrite Hf in He.
    + by rewrite Hm in He.
  - split; [done|]. split; [by repeat constructor|].
    intros _. split; [done|]. apply elem_of_cons. right.
    by apply list_elem_of_singleton.
Qed.

Lemma inner_loop_idle service sender_email label_name label_id msgs
    w r w1 ev :
  (∀ m, m ∈ msgs → carries w label_id (ref_id m)) →
  for_each msgs (label_message service sender_email label_name label_id) w
    = (r, w1, ev) →
  same_remote w w1 ∧ Forall idle_event ev
  ∧ (faults w = [] →
     r = Ok tt ∧ faults w1 = []
     ∧ ∀ m, m ∈ msgs →
         Log INFO (AlreadyLabeled (ref_id m) sender_email label_name) ∈ ev).
Proof.
  revert w r w1 ev. induction msgs as [|m msgs IH]; intros w r w1 ev Hall; simpl.
  - intros [= <- <- <-]. split; [apply same_remote_refl|].
    split; [constructor|]. intros Hf. repeat split; try done.
    intros m Hin. by apply elem_of_nil in Hin.
  - rewrite bind_unfold.
    destruct (label_message _ _ _ _ m w) as [[r0 w0] ev0] eqn:E0.
    apply label_message_idle in E0 as (-> & Hev0 & Hok);
      [|apply Hall; by left].
    destruct r0 as [[]|e].
    + destruct (for_each msgs _ (step w)) as [[r' w2] ev2] eqn:E2.
      apply IH in E2 as (Hsame & Hev2 & Hok2).
      2:{ intros m' Hin. destruct (Hall m') as (ls & Hm & Hl); [by right|].
          by exists ls. }
      intros [= <- <- <-].
      split; [exact (same_remote_trans _ _ _ (same_remote_step w) Hsame)|].
      split; [by apply Forall_app|].
      intros Hf. destruct (Hok Hf) as [_ Hlog].
      destruct Hok2 as (-> & Hf2 & Hlogs); [by simpl; rewrite Hf|].
      repeat split; try done. intros m' Hin. apply elem_of_app.
      apply elem_of_cons in Hin as [->|Hin]; [by left|right; auto].
    + intros [= <- <- <-]. split; [apply same_remote_step|].
      split; [done|]. intros Hf. by destruct (Hok Hf).
Qed.

(** Resolution of a name that is in the listing. *)
Lemma get_or_create_label_known service label_name label_id w r w1 ev :
  label_map_of (labels w) !! label_name = Some label_id →
  get_or_create_label service label_name w = (r, w1, ev) →
  w1 = step w ∧ Forall idle_event ev
  ∧ (∀ l, r = Ok l → l = label_id)
  ∧ (faults w = [] → r = Ok label_id).
Proof.
  intros Hres. unfold get_or_create_label, labels_list, external.
  unfold_monad. simpl.
  destruct (faults w) as [|[e|] fs] eqn:Hf; simpl; rewrite ?Hres; simpl.
  - intros [= <- <- <-]. repeat split; try by repeat constructor.
    by intros l [= <-].
  - destruct e; simpl; intros [= <- <- <-];
      repeat split; try (by repeat constructor); by intros l [=].
  - intros [= <- <- <-]. repeat split; try (by repeat constructor).
    by intros l [= <-].
Qed.

Lemma search_and_label_idle service days date sender_email label_name
    label_id w r w1 ev :
  steady days date w →
  (label_id ≠ "" →
   ∀ id, id ∈ page w sender_email date → carries w label_id id) →
  search_and_label service days sender_email label_name label_id w
    = (r, w1, ev) →
  same_remote w w1 ∧ Forall idle_event ev
  ∧ (faults w = [] →
     r = Ok tt ∧ faults w1 = []
     ∧ (label_id ≠ "" → ∀ id, id ∈ page w sender_email date →
          Log INFO (AlreadyLabeled id sender_email label_name) ∈ ev)).
Proof.
  intros Hdate Hall. unfold search_and_label.
  destruct (decide (label_id = "")) as [->|Hne].
  { intros [= <- <- <-]. split; [apply same_remote_refl|].
    split; [by repeat constructor|]. intros Hf. by repeat split. }
  specialize (Hall Hne).
  rewrite bind_unfold. unfold date_n_days_ago at 1. rewrite Hdate.
  fold (query_of sender_email date). rewrite bind_unfold.
  destruct (messages_list _ _ None w) as [[[resp|e] w0] ev0] eqn:E0.
  - pose proof (external_events _ _ _ _ _ _ E0) as ->.
    apply messages_list_run in E0 as [-> Hresp].
    rewrite (Hresp resp eq_refl). fold (page w sender_email date).
    destruct (Build_message_ref <$> page w sender_email date)
      as [|m ms] eqn:Hms.
    + intros [= <- <- <-]. split; [apply same_remote_step|].
      split; [by repeat constructor|]. intros Hf.
      split; [done|]. split; [by simpl; rewrite Hf|].
      intros _ id Hin. apply fmap_nil_inv in Hms. rewrite Hms in Hin.
      by apply elem_of_nil in Hin.
    + rewrite <- Hms. clear Hms.
      destruct (for_each _ _ (step w)) as [[r' w2] ev2] eqn:E2.
      apply inner_loop_idle in E2 as (Hsame & Hev2 & Hok).
      2:{ intros m' Hin. apply list_elem_of_fmap in Hin as (id & -> & Hin).
          destruct (Hall id Hin) as (ls & Hm & Hl). by exists ls. }
      intros [= <- <- <-].
      split; [exact (same_remote_trans _ _ _ (same_remote_step w) Hsame)|].
      split; [by constructor|]. intros Hf.
      destruct Hok as (-> & Hf2 & Hlogs); [by simpl; rewrite Hf|].
      repeat split; try done. intros _ id Hin. apply elem_of_cons. right.
      apply (Hlogs {| ref_id := id |}). apply list_elem_of_fmap. by exists id.
  - pose proof (external_events _ _ _ _ _ _ E0) as ->.
    intros [= <- <- <-]. revert E0. unfold messages_list, external.
    destruct (faults w) as [|[e'|] fs] eqn:Hf; simpl;
      try (destruct (search w _ !! 0%nat) as [[|? ?]|]; intros [=]).
    intros [= <- <-]. split; [apply same_remote_step|].
    split; [by repeat constructor|]. done.
Qed.

Lemma label_sender_idle service days date rule w r w1 ev :
  steady days date w →
  settled date w rule →
  label_sender service days rule w = (r, w1, ev) →
  same_remote w w1 ∧ Forall idle_event ev
  ∧ (faults w = [] →
     r = Ok tt ∧ faults w1 = []
     ∧ ∀ label_id id,
         label_map_of (labels w) !! rule.2 = Some label_id →
         label_id ≠ "" → id ∈ page w rule.1 date →
         Log INFO (AlreadyLabeled id rule.1 rule.2) ∈ ev).
Proof.
  destruct rule as [sender_email label_name].
  intros Hdate (label_id & Hres & Hall). simpl in Hres, Hall.
  rewrite label_sender_unfold, bind_unfold.
  destruct (get_or_create_label service label_name w)
    as [[r0 w0] ev0] eqn:E0.
  apply (get_or_create_label_known _ _ label_id) in E0
    as (-> & Hev0 & Hid & Hok); [|done].
  destruct r0 as [l|e].
  - rewrite (Hid l eq_refl).
    destruct (search_and_label _ _ _ _ label_id (step w))
      as [[r' w2] ev2] eqn:E2.
    apply (search_and_label_idle _ _ date) in E2 as (Hsame & Hev2 & Hok2);
      [|done|done].
    intros [= <- <- <-].
    split; [exact (same_remote_trans _ _ _ (same_remote_step w) Hsame)|].
    split; [by apply Forall_app|]. intros Hf.
    destruct Hok2 as (-> & Hf2 & Hlogs); [by simpl; rewrite Hf|].
    repeat split; try done. simpl. intros l' id Hl' Hne Hin.
    assert (l' = label_id) as -> by congruence.
    apply elem_of_app. right. by apply Hlogs.
  - intros [= <- <- <-]. split; [apply same_remote_step|].
    split; [done|]. intros Hf. by specialize (Hok Hf).
Qed.

Lemma settled_same_remote date w w1 rule :
  same_remote w w1 → settled date w rule → settled date w1 rule.
Proof. intros H. apply settled_grows. by apply grows_refl. Qed.

Lemma outer_loop_idle service days date rules w r w1 ev :
  steady days date w →
  Forall (settled date w) rules →
  for_each rules (label_sender service days) w = (r, w1, ev) →
  same_remote w w1 ∧ Forall idle_event ev
  ∧ (faults w = [] →
     r = Ok tt
     ∧ ∀ rule label_id id,
         rule ∈ rules →
         label_map_of (labels w) !! rule.2 = Some label_id →
         label_id ≠ "" → id ∈ page w rule.1 date →
         Log INFO (AlreadyLabeled id rule.1 rule.2) ∈ ev).
Proof.
  revert w r w1 ev.
  induction rules as [|rule rules IH]; intros w r w1 ev Hdate Hall; simpl.
  - intros [= <- <- <-]. split; [apply same_remote_refl|].
    split; [constructor|]. intros _. split; [done|].
    intros rule l id Hin. by apply elem_of_nil in Hin.
  - apply Forall_cons in Hall as [Hrule Hall]. rewrite bind_unfold.
    destruct (label_sender service days rule w) as [[r0 w0] ev0] eqn:E0.
    apply (label_sender_idle _ _ date) in E0 as (Hsame0 & Hev0 & Hok0);
      [|done|done].
    destruct r0 as [[]|e].
    + destruct (for_each rules _ w0) as [[r' w2] ev2] eqn:E2.
      apply IH in E2 as (Hsame & Hev2 & Hok).
      2:{ eapply steady_grows; [by apply grows_refl|done]. }
      2:{ eapply Forall_impl; [exact Hall|]. intros x.
          by apply settled_same_remote. }
      intros [= <- <- <-].
      split; [by eapply same_remote_trans|].
      split; [by apply Forall_app|]. intros Hf.
      destruct (Hok0 Hf) as (_ & Hf0 & Hlogs0).
      destruct (Hok Hf0) as (-> & Hlogs). split; [done|].
      intros rule' l id Hin Hl Hne Hpage. apply elem_of_app.
      apply elem_of_cons in Hin as [->|Hin].
      * left. by eapply Hlogs0.
      * right. destruct Hsame0 as (El & _ & Es & _).
        apply (Hlogs rule' l id Hin); [by rewrite El|done|].
        unfold page in *. by rewrite Es.
    + intros [= <- <- <-]. split; [done|]. split; [done|].
      intros Hf. by destruct (Hok0 Hf).
Qed.

(** ** What the first pass recorded *)

Lemma recorded_grows date w w1 id sender_email label_name :
  grows w w1 →
  recorded date w id sender_email label_name →
  recorded date w1 id sender_email label_name.
Proof.
  intros (Es & _ & Hl & _) (l & Hres & Hne & Hin). exists l.
  repeat split; auto. unfold page in *. by rewrite Es.
Qed.

Lemma processed_app ev1 ev2 id s n :
  processed (ev1 ++ ev2) id s n ↔ processed ev1 id s n ∨ processed ev2 id s n.
Proof. unfold processed. rewrite !elem_of_app. tauto. Qed.

Lemma get_or_create_label_emits service label_name :
  emits resolution_event (get_or_create_label service label_name).
Proof.
  unfold get_or_create_label. apply emits_try_except.
  - apply emits_bind; [by apply emits_external|]. intros labels.
    destruct (label_map_of labels !! label_name).
    + apply emits_bind; [by apply emits_logging|]. intros _. apply emits_ret.
    + apply emits_bind; [by apply emits_logging|]. intros _.
      apply emits_bind; [by apply emits_external|]. intros label.
      apply emits_bind; [by apply emits_logging|]. intros _. apply emits_ret.
  - intros []; try apply emits_raise.
    apply emits_bind; [by apply emits_logging|]. intros _. apply emits_raise.
Qed.

Lemma resolution_not_processed ev id s n :
  Forall resolution_event ev → ¬ processed ev id s n.
Proof.
  rewrite Forall_forall. intros H [Hin|Hin]; exact (H _ Hin).
Qed.

Lemma get_or_create_label_raise service label_name w e w1 ev :
  get_or_create_label service label_name w = (Raise e, w1, ev) →
  same_remote w w1.
Proof.
  unfold get_or_create_label, labels_list, labels_create, external.
  unfold_monad. simpl.
  destruct (faults w) as [|[e'|] fs] eqn:Hf; simpl.
  - destruct (label_map_of (labels w) !! label_name); simpl; [done|].
    rewrite Hf. simpl. case_bool_decide; simpl; [|done].
    by intros [= <- <- <-].
  - destruct e'; simpl; by intros [= <- <- <-].
  - destruct (label_map_of (labels w) !! label_name); simpl; [done|].
    rewrite Hf. simpl. destruct fs as [|[e'|] fs']; simpl.
    + case_bool_decide; simpl; [|done]. by intros [= <- <- <-].
    + destruct e'; simpl; by intros [= <- <- <-].
    + case_bool_decide; simpl; [|done]. by intros [= <- <- <-].
Qed.

Lemma label_message_processed service sender_email label_name label_id
    message w r w1 ev id s n :
  label_message service sender_email label_name label_id message w
    = (r, w1, ev) →
  processed ev id s n →
  id = ref_id message ∧ s = sender_email ∧ n = label_name.
Proof.
  intros H. apply label_message_outcome in H.
  destruct H as [e He|ls Hm Hin|ls e Hm Hin He|ls Hm Hin]; intros [Hp|Hp];
    repeat (apply elem_of_cons in Hp as [Hp|Hp];
            [try discriminate; by injection Hp as -> -> ->|]);
    by apply elem_of_nil in Hp.
Qed.

Lemma inner_loop_processed service sender_email label_name label_id msgs
    w r w1 ev id s n :
  for_each msgs (label_message service sender_email label_name label_id) w
    = (r, w1, ev) →
  processed ev id s n →
  id ∈ ref_id <$> msgs ∧ s = sender_email ∧ n = label_name.
Proof.
  revert w r w1 ev. induction msgs as [|m msgs IH]; intros w r w1 ev; simpl.
  - intros [= _ _ <-] [Hp|Hp]; by apply elem_of_nil in Hp.
  - rewrite bind_unfold.
    destruct (label_message _ _ _ _ m w) as [[[[]|e] w0] ev0] eqn:E0.
    + destruct (for_each msgs _ w0) as [[r' w2] ev2] eqn:E2.
      intros [= _ _ <-] Hp. apply processed_app in Hp as [Hp|Hp].
      * destruct (label_message_processed _ _ _ _ _ _ _ _ _ _ _ _ E0 Hp)
          as (-> & -> & ->). split; [by left|done].
      * destruct (IH _ _ _ _ E2 Hp) as (Hin & -> & ->). split; [by right|done].
    + intros [= _ _ <-] Hp.
      destruct (label_message_processed _ _ _ _ _ _ _ _ _ _ _ _ E0 Hp)
        as (-> & -> & ->). split; [by left|done].
Qed.

Lemma search_and_label_processed service days date sender_email label_name
    label_id w r w1 ev id s n :
  steady days date w →
  search_and_label service days sender_email label_name label_id w
    = (r, w1, ev) →
  processed ev id s n →
  s = sender_email ∧ n = label_name ∧ label_id ≠ ""
  ∧ id ∈ page w sender_email date.
Proof.
  intros Hdate. unfold search_and_label.
  destruct (decide (label_id = "")) as [->|Hne].
  { intros [= _ _ <-] [Hp|Hp];
      apply list_elem_of_singleton in Hp; discriminate. }
  rewrite bind_unfold. unfold date_n_days_ago at 1. rewrite Hdate.
  fold (query_of sender_email date). rewrite bind_unfold.
  destruct (messages_list _ _ None w) as [[[resp|e] w0] ev0] eqn:E0;
    pose proof (external_events _ _ _ _ _ _ E0) as ->.
  - apply messages_list_run in E0 as [-> Hresp].
    rewrite (Hresp resp eq_refl). fold (page w sender_email date).
    destruct (Build_message_ref <$> page w sender_email date)
      as [|m ms] eqn:Hms.
    + intros [= _ _ <-] [Hp|Hp];
        repeat (apply elem_of_cons in Hp as [Hp|Hp]; [discriminate|]);
        by apply elem_of_nil in Hp.
    + rewrite <- Hms. clear Hms.
      destruct (for_each _ _ (step w)) as [[r' w2] ev2] eqn:E2.
      intros [= _ _ <-] Hp.
      assert (processed ev2 id s n) as Hp2.
      { destruct Hp as [Hp|Hp]; apply elem_of_cons in Hp as [Hp|Hp];
          try discriminate; [by left|by right]. }
      destruct (inner_loop_processed _ _ _ _ _ _ _ _ _ _ _ _ E2 Hp2)
        as (Hin & -> & ->).
      repeat split; try done.
      apply list_elem_of_fmap in Hin as (m' & -> & Hin).
      by apply list_elem_of_fmap in Hin as (id' & -> & Hin).
  - intros [= _ _ <-] [Hp|Hp];
      apply list_elem_of_singleton in Hp; discriminate.
Qed.

Lemma label_sender_grows service days rule w r w1 ev :
  label_sender service days rule w = (r, w1, ev) → grows w w1.
Proof.
  destruct rule as [sender_email label_name].
  rewrite label_sender_unfold, bind_unfold.
  destruct (get_or_create_label service label_name w)
    as [[[label_id|e] w0] ev0] eqn:E0.
  - apply get_or_create_label_grows in E0 as (Hg & _).
    destruct (search_and_label _ _ _ _ label_id w0) as [[r' w2] ev2] eqn:E2.
    intros [= _ <- _].
    apply search_and_label_touched in E2 as (El & Es & Ec & Ht).
    eapply grows_trans; [exact Hg|]. by eapply touched_grows.
  - intros [= _ <- _]. apply grows_refl.
    by eapply get_or_create_label_raise.
Qed.

Lemma label_sender_processed service days date rule w r w1 ev id s n :
  steady days date w →
  label_sender service days rule w = (r, w1, ev) →
  processed ev id s n →
  (s, n) = rule ∧ recorded date w1 id s n.
Proof.
  destruct rule as [sender_email label_name]. intros Hdate.
  rewrite label_sender_unfold, bind_unfold.
  destruct (get_or_create_label service label_name w)
    as [[[label_id|e] w0] ev0] eqn:E0;
    pose proof (get_or_create_label_emits _ _ _ _ _ _ E0) as Hev0.
  - apply get_or_create_label_grows in E0 as (Hg & _ & Hres).
    destruct (search_and_label _ _ _ _ label_id w0) as [[r' w2] ev2] eqn:E2.
    intros [= _ <- <-] Hp. apply processed_app in Hp as [Hp|Hp];
      [by apply resolution_not_processed in Hp|].
    destruct (search_and_label_processed _ _ date _ _ _ _ _ _ _ _ _ _
                (steady_grows _ _ _ _ Hg Hdate) E2 Hp)
      as (-> & -> & Hne & Hin).
    split; [done|].
    apply search_and_label_touched in E2 as (El & Es & Ec & Ht).
    exists label_id. rewrite El. repeat split; try done.
    unfold page in *. by rewrite Es.
  - intros [= _ _ <-] Hp. by apply resolution_not_processed in Hp.
Qed.

Lemma outer_loop_processed service days date rules w r w1 ev id s n :
  steady days date w →
  for_each rules (label_sender service days) w = (r, w1, ev) →
  grows w w1
  ∧ (processed ev id s n → (s, n) ∈ rules ∧ recorded date w1 id s n).
Proof.
  revert w r w1 ev.
  induction rules as [|rule rules IH]; intros w r w1 ev Hdate; simpl.
  - intros [= _ <- <-]. split; [apply grows_refl, same_remote_refl|].
    intros [Hp|Hp]; by apply elem_of_nil in Hp.
  - rewrite bind_unfold.
    destruct (label_sender service days rule w) as [[r0 w0] ev0] eqn:E0.
    pose proof (label_sender_grows _ _ _ _ _ _ _ E0) as Hg0.
    pose proof (label_sender_processed _ _ date _ _ _ _ _ id s n Hdate E0)
      as Hrec0.
    destruct r0 as [[]|e].
    + destruct (for_each rules _ w0) as [[r' w2] ev2] eqn:E2.
      apply IH in E2 as [Hg Hrec]; [|by eapply steady_grows].
      intros [= _ <- <-]. split; [by eapply grows_trans|].
      intros Hp. apply processed_app in Hp as [Hp|Hp].
      * destruct (Hrec0 Hp) as [<- Hr]. split; [by left|].
        by eapply recorded_grows.
      * destruct (Hrec Hp) as [Hin Hr]. split; [by right|done].
    + intros [= _ <- <-]. split; [done|]. intros Hp.
      destruct (Hrec0 Hp) as [<- Hr]. split; [by left|done].
Qed.

(** Events of the loop over the rules: the error record of [label_emails]
    is not among them. *)
Lemma outer_loop_logs_no_error service days rules w r w1 ev :
  for_each rules (label_sender service days) w = (r, w1, ev) →
  Log ERROR ErrorOccurred ∉ ev.
Proof.
  intros Hrun Hin.
  assert (emits (λ e, e ≠ Log ERROR ErrorOccurred)
            (for_each rules (label_sender service days))) as Hemits.
  { apply emits_for_each. intros [sender_email label_name].
    rewrite label_sender_unfold. apply emits_bind.
    - intros w' r' w1' ev' H'. apply get_or_create_label_emits in H'.
      eapply Forall_impl; [exact H'|]. by intros [[]|? []].
    - intros label_id w' r' w1' ev' H'. apply search_and_label_emits in H'.
      eapply Forall_impl; [exact H'|]. by intros [[]|? []]. }
  apply Hemits in Hrun. rewrite Forall_forall in Hrun. by apply (Hrun _ Hin).
Qed.

Lemma label_emails_clean service rules days w w1 ev :
  label_emails service rules days w = (Ok tt, w1, ev) →
  Log ERROR ErrorOccurred ∉ ev →
  for_each rules (label_sender service days) w = (Ok tt, w1, ev).
Proof.
  unfold label_emails, try_except.
  destruct (for_each rules _ w) as [[[[]|e] w0] ev0]; [done|].
  destruct e; try (intros [=]; fail). unfold logging. intros [= _ <-] Hlog.
  exfalso. apply Hlog. apply elem_of_app. right.
  by apply list_elem_of_singleton.
Qed.

Lemma idle_events_no_modify ev :
  Forall idle_event ev →
  filter is_modify (calls_of ev) = []
  ∧ ∀ id s n, Log INFO (Labeled id s n) ∉ ev.
Proof.
  intros H. split.
  - induction H as [|e ev He _ IH]; [done|].
    change (e :: ev) with ([e] ++ ev). rewrite calls_of_app, filter_app, IH.
    by destruct e as [[]|].
  - intros id s n Hin. rewrite Forall_forall in H. exact (H _ Hin).
Qed.

Lemma same_remote_with_faults fs w : same_remote w (with_faults fs w).
Proof. by repeat split. Qed.

(** C2. Let a first pass over the rules go through without an error, with
    the look-back date unchanged. A second pass over the same rules, started
    in the world the first one left, issues no [modify] and records no
    message as labelled, whatever calls fail this time, and leaves labels and
    mailbox as they are; when no call fails it completes, and every message
    the first pass recorded as labelled or already labelled is recorded as
    already labelled. *)
Theorem second_pass_changes_nothing service rules days date w w1 ev1 :
  steady days date w →
  label_emails service rules days w = (Ok tt, w1, ev1) →
  Log ERROR ErrorOccurred ∉ ev1 →
  (∀ fs,
     let out := label_emails service rules days (with_faults fs w1) in
     filter is_modify (calls_of out.2) = []
     ∧ (∀ id s n, Log INFO (Labeled id s n) ∉ out.2)
     ∧ mailbox out.1.2 = mailbox w1 ∧ labels out.1.2 = labels w1)
  ∧ (let out := label_emails service rules days (with_faults [] w1) in
     out.1.1 = Ok tt
     ∧ (Log ERROR ErrorOccurred ∉ out.2)
     ∧ ∀ id s n,
         processed ev1 id s n → Log INFO (AlreadyLabeled id s n) ∈ out.2).
Proof.
  intros Hdate Hrun Hlog.
  apply label_emails_clean in Hrun; [|done].
  pose proof (outer_loop_settles _ _ date _ _ _ _ Hdate Hrun) as [Hg Hall].
  assert (∀ fs, steady days date (with_faults fs w1)) as Hdate1.
  { intros fs. eapply steady_grows; [|exact Hdate].
    eapply grows_trans; [exact Hg|]. apply grows_refl, same_remote_with_faults. }
  assert (∀ fs, Forall (settled date (with_faults fs w1)) rules) as Hall1.
  { intros fs. eapply Forall_impl; [exact Hall|]. intros rule.
    apply settled_same_remote, same_remote_with_faults. }
  split.
  - intros fs out. subst out. unfold label_emails, try_except.
    destruct (for_each rules _ (with_faults fs w1)) as [[r2 w2] ev2] eqn:E2.
    apply (outer_loop_idle _ _ date) in E2 as ((El & Em & _) & Hev & _);
      [|done|done].
    assert (Forall idle_event (ev2 ++ [Log ERROR ErrorOccurred])) as Hev'
      by (apply Forall_app; split; [done|by repeat constructor]).
    destruct r2 as [[]|[]]; simpl; rewrite ?app_nil_r;
      (split; [by apply idle_events_no_modify|]);
      (split; [by apply idle_events_no_modify|]); done.
  - intros out. subst out. unfold label_emails, try_except.
    destruct (for_each rules _ (with_faults [] w1)) as [[r2 w2] ev2] eqn:E2.
    pose proof (outer_loop_logs_no_error _ _ _ _ _ _ _ E2) as Hno.
    apply (outer_loop_idle _ _ date) in E2 as (_ & _ & Hok); [|done|done].
    destruct (Hok eq_refl) as [-> Hlogs]. simpl.
    split; [done|]. split; [done|]. intros id s n Hp.
    destruct (outer_loop_processed _ _ date _ _ _ _ _ id s n Hdate Hrun)
      as [_ Hrec].
    destruct (Hrec Hp) as (Hin & l & Hres & Hne & Hpage).
    exact (Hlogs (s, n) l id Hin Hres Hne Hpage).
Qed.

Lemma second_pass_changes_nothing_witness :
  let w1 := (label_emails GmailService demo_rules 7 demo_world).1.2 in
  let ev1 := (label_emails GmailService demo_rules 7 demo_world).2 in
  (∀ fs,
     let out := label_emails GmailService demo_rules 7 (with_faults fs w1) in
     filter is_modify (calls_of out.2) = []
     ∧ (∀ id s n, Log INFO (Labeled id s n) ∉ out.2)
     ∧ mailbox out.1.2 = mailbox w1 ∧ labels out.1.2 = labels w1)
  ∧ (let out := label_emails GmailService demo_rules 7 (with_faults [] w1) in
     out.1.1 = Ok tt
     ∧ (Log ERROR ErrorOccurred ∉ out.2)
     ∧ ∀ id s n,
         processed ev1 id s n → Log INFO (AlreadyLabeled id s n) ∈ out.2).
Proof.
  intros w1 ev1.
  apply (second_pass_changes_nothing GmailService demo_rules 7 "2024/01/01"
           demo_world w1 ev1).
  - intros t. reflexivity.
  - vm_compute. reflexivity.
  - vm_compute. intros Hin.
    repeat (apply elem_of_cons in Hin as [Hin|Hin]; [discriminate|]).
    by apply elem_of_nil in Hin.
Defined.

(** * Further properties of the script *)

(** ** Reading a run backwards *)

Lemma bind_ok_inv {A B} (m : M A) (k : A → M B) w b w2 ev :
  (m ≫= k) w = (Ok b, w2, ev) →
  ∃ a w1 ev1 ev2,
    m w = (Ok a, w1, ev1) ∧ k a w1 = (Ok b, w2, ev2) ∧ ev = ev1 ++ ev2.
Proof.
  rewrite bind_unfold. destruct (m w) as [[[a|e] w1] ev1]; [|done].
  destruct (k a w1) as [[r w2'] ev2] eqn:E. intros [= -> <- <-].
  by exists a, w1, ev1, ev2.
Qed.

Lemma external_ok_inv {A} c (serve : world → result A * world) w a w1 ev :
  external c serve w = (Ok a, w1, ev) →
  serve (step w) = (Ok a, w1) ∧ ev = [Call c]
  ∧ ∀ e, head (faults w) ≠ Some (Some e).
Proof.
  unfold external. destruct (faults w) as [|[e|] fs]; [|done|];
    destruct (serve (step w)) as [r w1']; intros [= -> <- <-]; by repeat split.
Qed.

Lemma calm_head n w e : calm (S n) w → head (faults w) ≠ Some (Some e).
Proof.
  intros H Hh. apply (H 0%nat e); [lia|]. by destruct (faults w).
Qed.

Lemma calm_step n w : calm (S n) w → calm n (step w).
Proof.
  intros H i e Hi. simpl. rewrite lookup_tail. apply H. lia.
Qed.

Lemma external_calm {A} c (serve : world → result A * world) w :
  calm 1 w →
  external c serve w = (let '(r, w1) := serve (step w) in (r, w1, [Call c])).
Proof.
  intros H. unfold external. destruct (faults w) as [|[e|] fs] eqn:Hf; try done.
  exfalso. apply (calm_head 0 w e H). by rewrite Hf.
Qed.

(** ** Relations that a computation keeps *)

Section keeps.
Context (R : world → world → Prop).
Context (R_refl : ∀ w, R w w) (R_trans : ∀ w w1 w2, R w w1 → R w1 w2 → R w w2).

Lemma keeps_ret {A} (a : A) : keeps R (mret a).
Proof. intros w r w1 ev [= _ <- _]. apply R_refl. Qed.

Lemma keeps_raise {A} (e : exn) : keeps R (@raise A e).
Proof. intros w r w1 ev [= _ <- _]. apply R_refl. Qed.

Lemma keeps_logging lvl m : keeps R (logging lvl m).
Proof. intros w r w1 ev [= _ <- _]. apply R_refl. Qed.

Lemma keeps_date days : keeps R (date_n_days_ago days).
Proof.
  intros w r w1 ev. unfold date_n_days_ago.
  destruct (calendar w (ticks w) days); intros [= _ <- _]; apply R_refl.
Qed.

Lemma keeps_external {A} c (serve : world → result A * world) :
  (∀ w, R w (step w)) →
  (∀ w r w1, serve w = (r, w1) → R w w1) →
  keeps R (external c serve).
Proof.
  intros Hstep Hserve w r w1 ev. unfold external.
  destruct (faults w) as [|[e|] fs];
    try (destruct (serve (step w)) as [r' w1'] eqn:E; intros [= _ <- _];
         eapply R_trans; [apply Hstep | by eapply Hserve]).
  intros [= _ <- _]. apply Hstep.
Qed.

Lemma keeps_bind {A B} (m : M A) (k : A → M B) :
  keeps R m → (∀ a, keeps R (k a)) → keeps R (m ≫= k).
Proof.
  intros Hm Hk w r w2 ev. rewrite bind_unfold.
  destruct (m w) as [[[a|e] w1] ev1] eqn:E1.
  - destruct (k a w1) as [[r' w2'] ev2] eqn:E2. intros [= _ <- _].
    eapply R_trans; [exact (Hm _ _ _ _ E1) | exact (Hk _ _ _ _ _ E2)].
  - intros [= _ <- _]. exact (Hm _ _ _ _ E1).
Qed.

Lemma keeps_try_except {A} (body : M A) (handler : exn → M A) :
  keeps R body → (∀ e, keeps R (handler e)) → keeps R (try_except body handler).
Proof.
  intros Hm Hk w r w2 ev. unfold try_except.
  destruct (body w) as [[[a|e] w1] ev1] eqn:E1.
  - intros [= _ <- _]. exact (Hm _ _ _ _ E1).
  - destruct (handler e w1) as [[r' w2'] ev2] eqn:E2. intros [= _ <- _].
    eapply R_trans; [exact (Hm _ _ _ _ E1) | exact (Hk _ _ _ _ _ E2)].
Qed.

Lemma keeps_for_each {A} (xs : list A) (body : A → M unit) :
  (∀ x, keeps R (body x)) → keeps R (for_each xs body).
Proof.
  intros H. induction xs as [|x xs IH]; simpl.
  - apply keeps_ret.
  - apply keeps_bind; [apply H | intros _; exact IH].
Qed.
End keeps.

(** ** Authentication *)

Lemma emits_token_exists P : emits P token_exists.
Proof. intros w r w1 ev [= _ _ <-]. constructor. Qed.

Lemma keeps_token_exists R : (∀ w, R w w) → keeps R token_exists.
Proof. intros HR w r w1 ev [= _ <- _]. apply HR. Qed.

Lemma authenticate_gmail_emits : emits auth_event authenticate_gmail.
Proof.
  unfold authenticate_gmail.
  repeat first
    [ apply emits_ret | apply emits_raise | apply emits_token_exists
    | by apply emits_logging | by apply emits_external
    | apply emits_try_except | apply emits_bind
    | match goal with
      | |- emits _ (if ?b then _ else _) => destruct b
      | |- emits _ (match ?x with _ => _ end) => destruct x
      end
    | intros ? ].
Qed.

Lemma same_remote_set_token c w : same_remote w (set_token c w).
Proof. by repeat split. Qed.

(** X6. Authentication is a matter of credentials only: it issues no call
    of the Gmail API and leaves the label directory, the mailbox and the
    search results as they are, whether it succeeds or fails. *)
Theorem authenticate_gmail_leaves_mail_alone w :
  same_remote w (authenticate_gmail w).1.2
  ∧ Forall auth_event (authenticate_gmail w).2.
Proof.
  destruct (authenticate_gmail w) as [[r w1] ev] eqn:E. simpl. split.
  - revert w r w1 ev E. change (keeps same_remote authenticate_gmail).
    unfold authenticate_gmail.
    repeat first
      [ apply (keeps_ret _ same_remote_refl)
      | apply (keeps_raise _ same_remote_refl)
      | apply (keeps_token_exists _ same_remote_refl)
      | apply (keeps_logging _ same_remote_refl)
      | apply (keeps_try_except _ same_remote_trans)
      | apply (keeps_bind _ same_remote_trans)
      | apply (keeps_external _ same_remote_trans);
          [ apply same_remote_step
          | intros w0 r0 w2; try destruct (token_file w0);
            intros [= _ <-];
            first [apply same_remote_refl | apply same_remote_set_token] ]
      | match goal with
        | |- keeps _ (if ?b then _ else _) => destruct b
        | |- keeps _ (match ?x with _ => _ end) => destruct x
        end
      | intros ? ].
  - by apply authenticate_gmail_emits in E.
Qed.

Lemma calm_faults_2 w :
  calm 2 w →
  faults w = [] ∨ (∃ fs, faults w = None :: fs ∧ (fs = [] ∨ ∃ fs', fs = None :: fs')).
Proof.
  intros H. destruct (faults w) as [|[e|] fs] eqn:Hf; [by left| |].
  - exfalso. apply (H 0%nat e); [lia|]. by rewrite Hf.
  - right. exists fs. split; [done|]. destruct fs as [|[e|] fs']; [by left| |].
    + exfalso. apply (H 1%nat e); [lia|]. by rewrite Hf.
    + right. by exists fs'.
Qed.

(** X2. With a token file that holds valid credentials, and the two calls
    it makes not failing, [authenticate_gmail] loads the credentials and
    builds the service; it neither refreshes, nor starts the OAuth flow, nor
    rewrites the token file. *)
Theorem valid_token_is_used_as_is w c :
  token_file w = Some c →
  valid c = true →
  calm 2 w →
  authenticate_gmail w =
    (Ok GmailService, step (step w),
     [Log INFO AuthStarting; Log INFO AuthLoadingToken; Call CredentialsLoad;
      Log INFO AuthValid; Call ServiceBuild; Log INFO AuthServiceBuilt])
  ∧ token_file (authenticate_gmail w).1.2 = Some c.
Proof.
  intros Ht Hv Hc.
  assert (authenticate_gmail w =
    (Ok GmailService, step (step w),
     [Log INFO AuthStarting; Log INFO AuthLoadingToken; Call CredentialsLoad;
      Log INFO AuthValid; Call ServiceBuild; Log INFO AuthServiceBuilt])) as E.
  { unfold authenticate_gmail, token_exists, credentials_load, build, external.
    unfold_monad. simpl. rewrite Ht. simpl.
    destruct (calm_faults_2 w Hc) as [Hf|(fs & Hf & [->| [fs' ->]])];
      rewrite Hf; simpl; rewrite ?Ht, ?Hf; simpl; rewrite Hv; simpl;
      rewrite ?Hf; reflexivity. }
  rewrite E. split; [done|]. exact Ht.
Qed.

Lemma valid_token_is_used_as_is_witness :
  authenticate_gmail demo_world =
    (Ok GmailService, step (step demo_world),
     [Log INFO AuthStarting; Log INFO AuthLoadingToken; Call CredentialsLoad;
      Log INFO AuthValid; Call ServiceBuild; Log INFO AuthServiceBuilt])
  ∧ token_file (authenticate_gmail demo_world).1.2 = Some fresh_credentials.
Proof.
  apply (valid_token_is_used_as_is demo_world fresh_credentials).
  - reflexivity.
  - reflexivity.
  - intros i e Hi. simpl. by rewrite lookup_nil.
Defined.

(** A failure of [authenticate_gmail] is logged last and raised again. *)
Lemma authenticate_gmail_raise w e w1 ev :
  authenticate_gmail w = (Raise e, w1, ev) →
  ∃ ev0, ev = ev0 ++ [Log ERROR (AuthFailed e)].
Proof.
  unfold authenticate_gmail. rewrite bind_unfold. unfold logging at 1.
  unfold try_except.
  match goal with |- context [match ?b w with _ => _ end] =>
    destruct (b w) as [[[a|e0] w0] ev0] end; [done|].
  unfold_monad. intros [= -> <- <-].
  exists (Log INFO AuthStarting :: ev0). simpl. by rewrite ?app_nil_r.
Qed.

(** X5. A failing authentication is fatal to the run: [main] raises the very
    exception, right after the error record of [authenticate_gmail], and no
    call of the Gmail API has been made. *)
Theorem failed_authentication_ends_the_run w c rules days e w1 ev :
  config_file w = ConfigParsed c →
  SENDER_LABELS c = Some rules →
  rules ≠ [] →
  py_int (lookback_string c) = Some days →
  authenticate_gmail w = (Raise e, w1, ev) →
  main w = (Raise e, w1, Log INFO ConfigLoaded :: ev)
  ∧ last ev = Some (Log ERROR (AuthFailed e))
  ∧ Forall auth_event ev.
Proof.
  intros Hc Hs Hne Hd Ha.
  rewrite (main_parsed w c rules days Hc Hs Hne Hd). unfold run.
  rewrite (bind_raise _ _ _ _ _ _ Ha). split; [done|]. split.
  - destruct (authenticate_gmail_raise _ _ _ _ Ha) as [ev0 ->].
    apply last_snoc.
  - exact (authenticate_gmail_emits _ _ _ _ Ha).
Qed.

Lemma failed_authentication_ends_the_run_witness :
  let w := with_faults [None; Some OtherError]
             (with_config (config_with_days "7") demo_world) in
  main w =
    (Raise OtherError, with_faults [] (step (step w)),
     Log INFO ConfigLoaded ::
     [Log INFO AuthStarting; Log INFO AuthLoadingToken; Call CredentialsLoad;
      Log INFO AuthValid; Call ServiceBuild; Log ERROR (AuthFailed OtherError)])
  ∧ last [Log INFO AuthStarting; Log INFO AuthLoadingToken;
          Call CredentialsLoad; Log INFO AuthValid; Call ServiceBuild;
          Log ERROR (AuthFailed OtherError)]
      = Some (Log ERROR (AuthFailed OtherError))
  ∧ Forall auth_event
      [Log INFO AuthStarting; Log INFO AuthLoadingToken; Call CredentialsLoad;
       Log INFO AuthValid; Call ServiceBuild; Log ERROR (AuthFailed OtherError)].
Proof.
  intros w.
  apply (failed_authentication_ends_the_run w (config_with_days "7")
           demo_rules 7 OtherError).
  - reflexivity.
  - reflexivity.
  - discriminate.
  - vm_compute. reflexivity.
  - vm_compute. reflexivity.
Defined.

(** X4. A refresh that fails is not followed by the OAuth flow: with stored
    credentials that are expired and carry a refresh token,
    [authenticate_gmail] logs the failure of the refresh and raises it; the
    flow is not started and the token file is not written. *)
Theorem failed_refresh_is_not_retried w c e fs :
  token_file w = Some c →
  valid c = false →
  expired c = true →
  truthy (refresh_token c) = true →
  faults w = None :: Some e :: fs →
  authenticate_gmail w =
    (Raise e, step (step w),
     [Log INFO AuthStarting; Log INFO AuthLoadingToken; Call CredentialsLoad;
      Log INFO AuthRefreshing; Call CredentialsRefresh;
      Log ERROR (AuthFailed e)])
  ∧ token_file (authenticate_gmail w).1.2 = Some c.
Proof.
  intros Ht Hv He Hr Hf.
  assert (authenticate_gmail w =
    (Raise e, step (step w),
     [Log INFO AuthStarting; Log INFO AuthLoadingToken; Call CredentialsLoad;
      Log INFO AuthRefreshing; Call CredentialsRefresh;
      Log ERROR (AuthFailed e)])) as E.
  { unfold authenticate_gmail, token_exists, credentials_load,
      credentials_refresh, external.
    unfold_monad. simpl.
    repeat (rewrite ?Ht, ?Hf, ?Hv, ?He, ?Hr; simpl). reflexivity. }
  rewrite E. split; [done|]. exact Ht.
Qed.

Lemma failed_refresh_is_not_retried_witness :
  let w := with_faults [None; Some OtherError]
             (set_token expired_credentials demo_world) in
  authenticate_gmail w =
    (Raise OtherError, step (step w),
     [Log INFO AuthStarting; Log INFO AuthLoadingToken; Call CredentialsLoad;
      Log INFO AuthRefreshing; Call CredentialsRefresh;
      Log ERROR (AuthFailed OtherError)])
  ∧ token_file (authenticate_gmail w).1.2 = Some expired_credentials.
Proof.
  intros w.
  apply (failed_refresh_is_not_retried w expired_credentials OtherError []);
    reflexivity.
Defined.

Ltac not_in_list :=
  let H := fresh in
  intros H;
  repeat (apply elem_of_cons in H as [H|H]; [discriminate H|]);
  by apply elem_of_nil in H.

Ltac in_list :=
  solve [repeat first [apply list_elem_of_here | apply list_elem_of_further]].

(** X3. When [authenticate_gmail] succeeds, either the stored credentials
    were valid and the token file is as before, nothing having been written;
    or exactly one of refresh and OAuth flow took place and the token file
    now holds the credentials it produced. The refresh is only taken for
    stored credentials that are expired and carry a refresh token. *)
Theorem successful_authentication_persists w service w1 ev :
  authenticate_gmail w = (Ok service, w1, ev) →
  (∃ c, token_file w = Some c ∧ valid c = true ∧ token_file w1 = Some c
        ∧ ∀ c', Call (TokenWrite c') ∉ ev)
  ∨ (∃ c', token_file w1 = Some c' ∧ Call (TokenWrite c') ∈ ev
       ∧ ((∃ c, token_file w = Some c ∧ valid c = false ∧ expired c = true
                ∧ truthy (refresh_token c) = true ∧ c' = refreshed c
                ∧ Call CredentialsRefresh ∈ ev ∧ Call OAuthFlow ∉ ev)
          ∨ (c' = granted w ∧ Call OAuthFlow ∈ ev
             ∧ Call CredentialsRefresh ∉ ev))).
Proof.
  unfold authenticate_gmail, token_exists, credentials_load,
    credentials_refresh, run_local_server, token_write, build, external.
  unfold_monad. simpl.
  destruct (token_file w) as [c|] eqn:Ht.
  - destruct (valid c) eqn:Hv, (expired c) eqn:He,
      (truthy (refresh_token c)) eqn:Hr;
      destruct (faults w) as [|[e0|] [|[e1|] [|[e2|] [|[e3|] fs]]]] eqn:Hf;
      repeat (simpl; rewrite ?Ht, ?Hf, ?Hv, ?He, ?Hr);
      (intros Heq; first [discriminate Heq | revert Heq; intros [= <- <-]]);
      first
        [ left; exists c; repeat split; try done; intros c'; not_in_list
        | right; eexists; split; [reflexivity|]; split; [in_list|];
          first
            [ left; exists c; repeat split; try done;
              first [in_list|not_in_list]
            | right; repeat split; try done; first [in_list|not_in_list] ] ].
  - destruct (faults w) as [|[e0|] [|[e1|] [|[e2|] fs]]] eqn:Hf;
      repeat (simpl; rewrite ?Ht, ?Hf);
      (intros Heq; first [discriminate Heq | revert Heq; intros [= <- <-]]);
      (right; eexists; split; [reflexivity|]; split; [in_list|];
       right; repeat split; try done; first [in_list|not_in_list]).
Qed.

Lemma successful_authentication_persists_witness :
  let out := authenticate_gmail tokenless_world in
  (∃ c, token_file tokenless_world = Some c ∧ valid c = true
        ∧ token_file out.1.2 = Some c
        ∧ ∀ c', Call (TokenWrite c') ∉ out.2)
  ∨ (∃ c', token_file out.1.2 = Some c' ∧ Call (TokenWrite c') ∈ out.2
       ∧ ((∃ c, token_file tokenless_world = Some c ∧ valid c = false
                ∧ expired c = true
                ∧ truthy (refresh_token c) = true ∧ c' = refreshed c
                ∧ Call CredentialsRefresh ∈ out.2 ∧ Call OAuthFlow ∉ out.2)
          ∨ (c' = granted tokenless_world ∧ Call OAuthFlow ∈ out.2
             ∧ Call CredentialsRefresh ∉ out.2))).
Proof.
  intros out.
  apply (successful_authentication_persists tokenless_world GmailService
           out.1.2 out.2).
  vm_compute. reflexivity.
Defined.

(** ** Label resolution, continued *)

Lemma label_map_of_lookup_Some labels label_name label_id :
  label_map_of labels !! label_name = Some label_id →
  {| lbl_name := label_name; lbl_id := label_id |} ∈ labels.
Proof.
  induction labels as [|l labels IH] using rev_ind.
  - unfold label_map_of. simpl. by rewrite lookup_empty.
  - rewrite label_map_of_snoc.
    destruct (decide (lbl_name l = label_name)) as [<-|Hne].
    + rewrite lookup_insert_eq. intros [= <-]. apply elem_of_app. right.
      apply list_elem_of_singleton. by destruct l.
    + rewrite lookup_insert_ne by done. intros H. apply elem_of_app. left.
      by apply IH.
Qed.

Lemma label_map_of_lookup_None labels label_name :
  label_map_of labels !! label_name = None ↔
  label_name ∉ lbl_name <$> labels.
Proof.
  induction labels as [|l labels IH] using rev_ind.
  - unfold label_map_of. simpl. rewrite lookup_empty. split; [|done].
    intros _. apply not_elem_of_nil.
  - rewrite label_map_of_snoc, fmap_app, not_elem_of_app. simpl.
    destruct (decide (lbl_name l = label_name)) as [<-|Hne].
    + rewrite lookup_insert_eq. split; [done|]. intros [_ H].
      exfalso. apply H. by apply list_elem_of_singleton.
    + rewrite lookup_insert_ne by done. rewrite IH. split; [|tauto].
      intros H. split; [done|]. intros Hin.
      apply list_elem_of_singleton in Hin. congruence.
Qed.

(** X7. A successful resolution returns the id of a label that the
    directory then holds under the requested name; the directory is the one
    from before, with at most that label appended. *)
Theorem resolved_label_is_in_the_directory service label_name w label_id w1 ev :
  get_or_create_label service label_name w = (Ok label_id, w1, ev) →
  {| lbl_name := label_name; lbl_id := label_id |} ∈ labels w1
  ∧ (labels w1 = labels w
     ∨ labels w1 = labels w ++ [ {| lbl_name := label_name; lbl_id := label_id |} ]).
Proof.
  intros H. apply get_or_create_label_ok in H
    as [(Hres & -> & _)|(Hnone & _ & _ & -> & _)].
  - split; [|by left]. by apply label_map_of_lookup_Some.
  - split; [|by right]. simpl. apply elem_of_app. right.
    by apply list_elem_of_singleton.
Qed.

Lemma resolved_label_is_in_the_directory_witness :
  let out := get_or_create_label GmailService "Bills" demo_world in
  {| lbl_name := "Bills"; lbl_id := "Label_2" |} ∈ labels out.1.2
  ∧ (labels out.1.2 = labels demo_world
     ∨ labels out.1.2 =
         labels demo_world ++ [ {| lbl_name := "Bills"; lbl_id := "Label_2" |} ]).
Proof.
  intros out.
  apply (resolved_label_is_in_the_directory GmailService "Bills" demo_world
           "Label_2" out.1.2 out.2).
  vm_compute. reflexivity.
Defined.

(** X8. [get_or_create_label] asks for a label to be created only when the
    listing it has just fetched holds no label of that name, and then with
    the requested name and the two visibility flags; so a directory without
    duplicate names stays without duplicates. *)
Theorem creation_only_for_unlisted_names service label_name w r w1 ev body :
  get_or_create_label service label_name w = (r, w1, ev) →
  Call (LabelsCreate body) ∈ ev →
  (label_name ∉ lbl_name <$> labels w)
  ∧ body = {| labelListVisibility := "labelShow";
              messageListVisibility := "show";
              name := label_name |}
  ∧ (NoDup (lbl_name <$> labels w) → NoDup (lbl_name <$> labels w1)).
Proof.
  unfold get_or_create_label, labels_list, labels_create, external.
  unfold_monad. simpl.
  destruct (label_map_of (labels w) !! label_name) as [l|] eqn:Hres;
    destruct (faults w) as [|[e|] [|[e'|] fs]] eqn:Hf; simpl;
    rewrite ?Hres; simpl; rewrite ?Hf; simpl;
    try case_bool_decide; simpl;
    try (destruct e; simpl); try (destruct e'; simpl);
    intros [= <- <- <-] Hin;
    try (exfalso; revert Hin; not_in_list);
    apply label_map_of_lookup_None in Hres;
    (split; [done|]);
    (split; [repeat (apply elem_of_cons in Hin as [Hin|Hin];
                     [try discriminate Hin; by injection Hin as ->|]);
             by apply elem_of_nil in Hin|]);
    simpl; try done;
    intros Hnd; rewrite fmap_app; apply NoDup_app; simpl;
    (split; [done|]); (split; [|apply NoDup_singleton]);
    intros x Hx Hx'; apply list_elem_of_singleton in Hx'; by subst.
Qed.

Lemma creation_only_for_unlisted_names_witness :
  let out := get_or_create_label GmailService "Bills" demo_world in
  ("Bills" ∉ lbl_name <$> labels demo_world)
  ∧ create_body "Bills" =
      {| labelListVisibility := "labelShow";
         messageListVisibility := "show";
         name := "Bills" |}
  ∧ (NoDup (lbl_name <$> labels demo_world) →
     NoDup (lbl_name <$> labels out.1.2)).
Proof.
  intros out.
  apply (creation_only_for_unlisted_names GmailService "Bills" demo_world
           out.1.1 out.1.2 out.2 (create_body "Bills")).
  - vm_compute. reflexivity.
  - vm_compute. in_list.
Defined.

(** X9. When the fetched listing holds several labels of the requested
    name, resolution takes the id of the last of them, and creates
    nothing. *)
Theorem last_label_of_a_name_wins service label_name w before after label_id
    r w1 ev :
  labels w =
    before ++ {| lbl_name := label_name; lbl_id := label_id |} :: after →
  label_name ∉ lbl_name <$> after →
  get_or_create_label service label_name w = (r, w1, ev) →
  (∀ l, r = Ok l → l = label_id)
  ∧ (calm 1 w → r = Ok label_id)
  ∧ labels w1 = labels w.
Proof.
  intros Hl Hafter Hrun.
  assert (label_map_of (labels w) !! label_name = Some label_id) as Hres.
  { rewrite Hl. clear Hl. induction after as [|l after IH] using rev_ind.
    - change (before ++ [?x]) with (before ++ [x]).
      rewrite label_map_of_snoc. apply lookup_insert_eq.
    - rewrite fmap_app, not_elem_of_app in Hafter. destruct Hafter as [Ha Hl].
      rewrite app_comm_cons, (assoc_L (++)), label_map_of_snoc.
      rewrite lookup_insert_ne; [by apply IH|].
      intros E. apply Hl. simpl. rewrite E. by apply list_elem_of_singleton. }
  assert (calm 1 w → r = Ok label_id) as Hcalm.
  { intros Hc. revert Hrun.
    unfold get_or_create_label, labels_list, external. unfold_monad. simpl.
    destruct (faults w) as [|[e|] fs] eqn:Hf; simpl; rewrite ?Hres; simpl.
    - by intros [= <- _ _].
    - exfalso. apply (calm_head 0 w e Hc). by rewrite Hf.
    - by intros [= <- _ _]. }
  apply (get_or_create_label_known _ _ label_id) in Hrun
    as (-> & _ & Hid & _); done.
Qed.

Lemma last_label_of_a_name_wins_witness :
  let out := get_or_create_label GmailService "Alerts" twin_world in
  (∀ l, out.1.1 = Ok l → l = "Label_7")
  ∧ (calm 1 twin_world → out.1.1 = Ok "Label_7")
  ∧ labels out.1.2 = labels twin_world.
Proof.
  intros out.
  apply (last_label_of_a_name_wins GmailService "Alerts" twin_world
           [ {| lbl_name := "Alerts"; lbl_id := "Label_1" |};
             {| lbl_name := "INBOX"; lbl_id := "INBOX" |} ] []
           "Label_7" out.1.1 out.1.2 out.2).
  - reflexivity.
  - vm_compute. apply not_elem_of_nil.
  - vm_compute. reflexivity.
Defined.

(** X10. When resolution fails, the remote side is as it was. An
    [HttpError] has then been logged, as the last event, before being raised
    again; any other exception passes without an error record. *)
Theorem failed_resolution_is_logged_and_raised service label_name w e w1 ev :
  get_or_create_label service label_name w = (Raise e, w1, ev) →
  same_remote w w1
  ∧ (e = HttpError → last ev = Some (Log ERROR (LabelError label_name)))
  ∧ (e ≠ HttpError → ∀ m, Log ERROR m ∉ ev).
Proof.
  intros Hrun. split; [by eapply get_or_create_label_raise|]. revert Hrun.
  unfold get_or_create_label, labels_list, labels_create, external.
  unfold_monad. simpl.
  destruct (label_map_of (labels w) !! label_name) as [l|] eqn:Hres;
    destruct (faults w) as [|[e0|] [|[e1|] fs]] eqn:Hf; simpl;
    rewrite ?Hres; simpl; rewrite ?Hf; simpl;
    try case_bool_decide; simpl;
    try (destruct e0; simpl); try (destruct e1; simpl);
    (intros Heq; first [discriminate Heq | revert Heq; intros [= <- <- <-]]);
    (split; [try done|]); try (intros _ m; not_in_list); by intros [].
Qed.

Lemma failed_resolution_is_logged_and_raised_witness :
  let w := with_faults [Some HttpError] demo_world in
  same_remote w (step w)
  ∧ (HttpError = HttpError →
     last [Call LabelsList; Log ERROR (LabelError "Alerts")]
       = Some (Log ERROR (LabelError "Alerts")))
  ∧ (HttpError ≠ HttpError →
     ∀ m, Log ERROR m ∉ [Call LabelsList; Log ERROR (LabelError "Alerts")]).
Proof.
  intros w.
  apply (failed_resolution_is_logged_and_raised GmailService "Alerts" w
           HttpError (step w)
           [Call LabelsList; Log ERROR (LabelError "Alerts")]).
  vm_compute. reflexivity.
Defined.

(** ** The labelling loop, continued *)

(** X11. [label_emails] never raises [HttpError]; any other exception of
    the loop leaves it as it came, with no record added. *)
Theorem label_emails_lets_only_other_errors_out service rules days w e w1 ev :
  label_emails service rules days w = (Raise e, w1, ev) →
  e ≠ HttpError
  ∧ for_each rules (label_sender service days) w = (Raise e, w1, ev).
Proof.
  unfold label_emails, try_except.
  destruct (for_each rules _ w) as [[[[]|e0] w0] ev0]; [done|].
  destruct e0; unfold_monad; intros [= <- <- <-];
    rewrite ?app_nil_r; by split.
Qed.

Lemma label_emails_lets_only_other_errors_out_witness :
  OverflowError ≠ HttpError
  ∧ for_each [("a@x.org", "Alerts")] (label_sender GmailService 7)
      overflow_world =
    (Raise OverflowError, step overflow_world,
     [Call LabelsList; Log INFO (LabelExists "Alerts")]).
Proof.
  apply (label_emails_lets_only_other_errors_out GmailService
           [("a@x.org", "Alerts")] 7 overflow_world).
  vm_compute. reflexivity.
Defined.

(** X16. A look-back that takes the date out of the calendar ends the run
    with an [OverflowError]: it is raised once the first rule has resolved
    its label, before any search, and [label_emails] does not catch it. *)
Theorem date_overflow_ends_the_run service days sender_email label_name rest
    w label_id w1 ev1 :
  get_or_create_label service label_name w = (Ok label_id, w1, ev1) →
  label_id ≠ "" →
  calendar w1 (ticks w1) days = None →
  label_emails service ((sender_email, label_name) :: rest) days w =
    (Raise OverflowError, w1, ev1).
Proof.
  intros Hres Hne Hdate. unfold label_emails, try_except. cbn [for_each].
  rewrite bind_unfold, label_sender_unfold, (bind_ok _ _ _ _ _ _ Hres).
  unfold search_and_label. rewrite decide_False by done.
  rewrite bind_unfold. unfold date_n_days_ago at 1. rewrite Hdate.
  unfold_monad. by rewrite !app_nil_r.
Qed.

Lemma date_overflow_ends_the_run_witness :
  label_emails GmailService (("a@x.org", "Alerts") :: [("b@x.org", "Bills")])
    1000000000 overflow_world =
    (Raise OverflowError, step overflow_world,
     [Call LabelsList; Log INFO (LabelExists "Alerts")]).
Proof.
  apply (date_overflow_ends_the_run GmailService 1000000000 "a@x.org" "Alerts"
           [("b@x.org", "Bills")] overflow_world "Label_1").
  - vm_compute. reflexivity.
  - discriminate.
  - reflexivity.
Defined.

(** X17. A [modify] is issued only for the message of the iteration and
    only when that message exists and its labels, as fetched, lack the
    label id. *)
Theorem modify_only_when_label_is_absent service sender_email label_name
    label_id message w r w1 ev id body :
  label_message service sender_email label_name label_id message w
    = (r, w1, ev) →
  Call (MessagesModify id body) ∈ ev →
  id = ref_id message
  ∧ ∃ ls, mailbox w !! id = Some ls ∧ label_id ∉ ls.
Proof.
  intros H Hin. apply label_message_outcome in H.
  destruct H as [e He|ls Hm Hl|ls e Hm Hl He|ls Hm Hl];
    repeat (apply elem_of_cons in Hin as [Hin|Hin];
            [try discriminate Hin; injection Hin as -> _; eauto|]);
    by apply elem_of_nil in Hin.
Qed.

Lemma modify_only_when_label_is_absent_witness :
  "m1" = ref_id {| ref_id := "m1" |}
  ∧ ∃ ls, mailbox demo_world !! "m1" = Some ls ∧ "Label_1" ∉ ls.
Proof.
  apply (modify_only_when_label_is_absent GmailService "a@x.org" "Alerts"
           "Label_1" {| ref_id := "m1" |} demo_world
           (label_message GmailService "a@x.org" "Alerts" "Label_1"
              {| ref_id := "m1" |} demo_world).1.1
           (label_message GmailService "a@x.org" "Alerts" "Label_1"
              {| ref_id := "m1" |} demo_world).1.2
           (label_message GmailService "a@x.org" "Alerts" "Label_1"
              {| ref_id := "m1" |} demo_world).2
           "m1" (add_only "Label_1")).
  - vm_compute. reflexivity.
  - vm_compute. in_list.
Defined.

(** ** What a run leaves untouched *)

Lemma only_adds_refl w : only_adds w w.
Proof.
  split; [done|]. intros id. destruct (mailbox w !! id) as [ls|] eqn:E; [|done].
  exists []. by rewrite app_nil_r.
Qed.

Lemma only_adds_trans w w1 w2 :
  only_adds w w1 → only_adds w1 w2 → only_adds w w2.
Proof.
  intros [Hp H] [Hp' H']. split; [by etrans|]. intros id.
  specialize (H id). specialize (H' id).
  destruct (mailbox w !! id) as [ls|].
  - destruct H as [a1 H]. rewrite H in H'. destruct H' as [a2 H'].
    exists (a1 ++ a2). by rewrite (assoc_L (++)).
  - by rewrite H in H'.
Qed.

Lemma only_adds_same w w1 :
  labels w1 = labels w → mailbox w1 = mailbox w → only_adds w w1.
Proof.
  intros El Em. split; [by rewrite El|]. intros id. rewrite Em.
  destruct (mailbox w !! id) as [ls|]; [|done]. exists []. by rewrite app_nil_r.
Qed.

Lemma label_message_only_adds service sender_email label_name label_id
    message :
  keeps only_adds
    (label_message service sender_email label_name label_id message).
Proof.
  intros w r w1 ev H. apply label_message_outcome in H.
  destruct H as [e He|ls Hm Hl|ls e Hm Hl He|ls Hm Hl];
    try by apply only_adds_same.
  split; [done|]. intros id. simpl.
  destruct (decide (id = ref_id message)) as [->|Hne].
  - rewrite Hm, lookup_insert_eq. by exists [label_id].
  - rewrite lookup_insert_ne by done.
    destruct (mailbox w !! id) as [ls'|]; [|done].
    exists []. by rewrite app_nil_r.
Qed.

Lemma get_or_create_label_only_adds service label_name :
  keeps only_adds (get_or_create_label service label_name).
Proof.
  intros w [label_id|e] w1 ev H.
  - apply get_or_create_label_ok in H
      as [(_ & -> & _)|(_ & _ & _ & -> & _)].
    + by apply only_adds_same.
    + split; [by apply prefix_app_r|]. intros id. simpl.
      destruct (mailbox w !! id) as [ls'|]; [|done].
      exists []. by rewrite app_nil_r.
  - apply get_or_create_label_raise in H as (El & Em & _).
    by apply only_adds_same.
Qed.

Lemma label_emails_only_adds service rules days :
  keeps only_adds (label_emails service rules days).
Proof.
  unfold label_emails.
  apply (keeps_try_except _ only_adds_trans).
  - apply (keeps_for_each _ only_adds_refl only_adds_trans).
    intros [sender_email label_name]. rewrite label_sender_unfold.
    apply (keeps_bind _ only_adds_trans);
      [apply get_or_create_label_only_adds|].
    intros label_id. unfold search_and_label. case_decide.
    { apply (keeps_logging _ only_adds_refl). }
    apply (keeps_bind _ only_adds_trans);
      [apply (keeps_date _ only_adds_refl)|]. intros date.
    apply (keeps_bind _ only_adds_trans).
    { apply (keeps_external _ only_adds_trans).
      - intros w. by apply only_adds_same.
      - intros w r w1. simpl. destruct (search w _ !! 0%nat); intros [= _ <-];
          apply only_adds_refl. }
    intros results. destruct (default [] (messages results)).
    { apply (keeps_logging _ only_adds_refl). }
    apply (keeps_for_each _ only_adds_refl only_adds_trans).
    intros msg. apply label_message_only_adds.
  - intros []; first [apply (keeps_raise _ only_adds_refl)
                     | apply (keeps_logging _ only_adds_refl)].
Qed.

(** X12. Whatever happens during a run of [label_emails], the remote side
    only gains: the label directory is the old one with labels appended, no
    message appears or disappears, and every message keeps its labels, in
    order, with the added ones behind them. *)
Theorem run_only_adds service rules days w :
  only_adds w (label_emails service rules days w).1.2.
Proof.
  destruct (label_emails service rules days w) as [[r w1] ev] eqn:E.
  exact (label_emails_only_adds _ _ _ _ _ _ _ E).
Qed.

Lemma run_only_adds_witness :
  only_adds demo_world
    (label_emails GmailService demo_rules 7 demo_world).1.2.
Proof. apply (run_only_adds GmailService demo_rules 7 demo_world). Defined.

(** X13. After a run that went through all rules without an error, with
    the look-back date unchanged, every rule's label name resolves in the
    directory and every message on the first result page of the rule's
    sender carries the resolved id (unless that id is the empty string, for
    which the rule is skipped). *)
Theorem error_free_run_labels_the_first_pages service rules days date w w1 ev :
  steady days date w →
  label_emails service rules days w = (Ok tt, w1, ev) →
  Log ERROR ErrorOccurred ∉ ev →
  ∀ sender_email label_name,
    (sender_email, label_name) ∈ rules →
    ∃ label_id,
      label_map_of (labels w1) !! label_name = Some label_id
      ∧ (label_id ≠ "" →
         ∀ id, id ∈ page w sender_email date → carries w1 label_id id).
Proof.
  intros Hdate Hrun Hlog sender_email label_name Hin.
  apply label_emails_clean in Hrun; [|done].
  apply (outer_loop_settles _ _ date) in Hrun as [(Es & _) Hall]; [|done].
  rewrite Forall_forall in Hall.
  destruct (Hall _ Hin) as (label_id & Hres & Hcar). exists label_id.
  split; [done|]. intros Hne id Hid. apply Hcar; [done|].
  unfold page in *. simpl. by rewrite Es.
Qed.

Lemma error_free_run_labels_the_first_pages_witness :
  ∃ label_id,
    label_map_of
      (labels (label_emails GmailService demo_rules 7 demo_world).1.2)
      !! "Bills" = Some label_id
    ∧ (label_id ≠ "" →
       ∀ id, id ∈ page demo_world "b@x.org" "2024/01/01" →
             carries (label_emails GmailService demo_rules 7 demo_world).1.2
               label_id id).
Proof.
  apply (error_free_run_labels_the_first_pages GmailService demo_rules 7
           "2024/01/01" demo_world
           (label_emails GmailService demo_rules 7 demo_world).1.2
           (label_emails GmailService demo_rules 7 demo_world).2).
  - intros t. reflexivity.
  - vm_compute. reflexivity.
  - vm_compute. not_in_list.
  - apply list_elem_of_further, list_elem_of_here.
Defined.

(** ** What a rule asks the mailbox *)

Lemma loop_event_mono ids ids' e :
  ids ⊆ ids' → loop_event ids e → loop_event ids' e.
Proof. intros H. destruct e as [[]|]; simpl; auto. Qed.

Lemma inner_loop_events service sender_email label_name label_id msgs
    w r w1 ev :
  for_each msgs (label_message service sender_email label_name label_id) w
    = (r, w1, ev) →
  Forall (loop_event (ref_id <$> msgs)) ev.
Proof.
  revert w r w1 ev. induction msgs as [|m msgs IH]; intros w r w1 ev; simpl.
  - intros [= _ _ <-]. constructor.
  - rewrite bind_unfold.
    destruct (label_message _ _ _ _ m w) as [[r0 w0] ev0] eqn:E0.
    assert (Forall (loop_event (ref_id m :: (ref_id <$> msgs))) ev0) as H0.
    { apply label_message_outcome in E0.
      destruct E0; repeat constructor; simpl; by left. }
    destruct r0 as [[]|e].
    + destruct (for_each msgs _ w0) as [[r' w2] ev2] eqn:E2.
      intros [= _ _ <-]. apply Forall_app. split; [done|].
      apply IH in E2. eapply Forall_impl; [exact E2|].
      intros e. apply loop_event_mono. by apply list_subseteq_cons.
    + by intros [= _ _ <-].
Qed.

Lemma ref_ids_of_refs (ids : list string) :
  ref_id <$> (Build_message_ref <$> ids) = ids.
Proof. induction ids as [|id ids IH]; [done|]. cbn. by f_equal. Qed.

(** The shape of the events after resolution: nothing but log records, or
    the one search request followed by the events of the inner loop over the
    first page. *)
Lemma search_and_label_events service days sender_email label_name label_id
    w r w1 ev :
  search_and_label service days sender_email label_name label_id w
    = (r, w1, ev) →
  Forall (loop_event []) ev
  ∨ ∃ date ev2,
      calendar w (ticks w) days = Some date
      ∧ ev = Call (MessagesList (query_of sender_email date) None) :: ev2
      ∧ Forall (loop_event (page w sender_email date)) ev2.
Proof.
  unfold search_and_label. case_decide.
  { intros [= _ _ <-]. left. by repeat constructor. }
  rewrite bind_unfold. unfold date_n_days_ago at 1.
  destruct (calendar w (ticks w) days) as [date|] eqn:Hdate.
  2:{ intros [= _ _ <-]. left. constructor. }
  fold (query_of sender_email date). rewrite bind_unfold.
  destruct (messages_list _ _ None w) as [[[resp|e] w0] ev0] eqn:E0;
    pose proof (external_events _ _ _ _ _ _ E0) as ->.
  - apply messages_list_run in E0 as [-> Hresp].
    rewrite (Hresp resp eq_refl). fold (page w sender_email date).
    destruct (Build_message_ref <$> page w sender_email date)
      as [|m ms] eqn:Hms.
    + intros [= _ _ <-]. right. exists date, [Log INFO (NoEmailsFound sender_email days)].
      repeat split; try done. by repeat constructor.
    + rewrite <- Hms. clear Hms.
      destruct (for_each _ _ (step w)) as [[r' w2] ev2] eqn:E2.
      intros [= _ _ <-]. right. exists date, ev2. repeat split; try done.
      apply inner_loop_events in E2. by rewrite ref_ids_of_refs in E2.
  - intros [= _ _ <-]. right. exists date, []. repeat split; try done.
Qed.

Lemma resolution_keeps_calendar service label_name w r w1 ev :
  get_or_create_label service label_name w = (r, w1, ev) →
  calendar w1 = calendar w ∧ search w1 = search w.
Proof.
  destruct r as [label_id|e]; intros H.
  - by apply get_or_create_label_grows in H as ((Es & Ec & _) & _).
  - by apply get_or_create_label_raise in H as (_ & _ & Es & Ec).
Qed.

(** X14. While a rule is processed, at most the first page of one search is
    asked for: every list request carries no page token and the query
    [from:<sender> after:<date>], for a date the clock gave for the
    look-back. *)
Theorem search_request_of_a_rule service days sender_email label_name
    w r w1 ev q pageToken :
  label_sender service days (sender_email, label_name) w = (r, w1, ev) →
  Call (MessagesList q pageToken) ∈ ev →
  pageToken = None
  ∧ ∃ t date,
      calendar w t days = Some date
      ∧ q = "from:" +:+ sender_email +:+ " after:" +:+ date.
Proof.
  rewrite label_sender_unfold, bind_unfold.
  destruct (get_or_create_label service label_name w)
    as [[[label_id|e] w0] ev0] eqn:E0;
    pose proof (get_or_create_label_emits _ _ _ _ _ _ E0) as Hev0;
    pose proof (resolution_keeps_calendar _ _ _ _ _ _ E0) as [Ec _];
    rewrite Forall_forall in Hev0.
  - destruct (search_and_label _ _ _ _ label_id w0) as [[r' w2] ev2] eqn:E2.
    intros [= _ _ <-] Hin. apply elem_of_app in Hin as [Hin|Hin];
      [by apply Hev0 in Hin|].
    apply search_and_label_events in E2
      as [Hlog|(date & ev3 & Hdate & -> & Hloop)].
    + rewrite Forall_forall in Hlog. by apply Hlog in Hin.
    + apply elem_of_cons in Hin as [[= -> ->]|Hin].
      * split; [done|]. exists (ticks w0), date. by rewrite <- Ec.
      * rewrite Forall_forall in Hloop. by apply Hloop in Hin.
  - intros [= _ _ <-] Hin. by apply Hev0 in Hin.
Qed.

Lemma search_request_of_a_rule_witness :
  None = @None nat
  ∧ ∃ t date,
      calendar demo_world t 7 = Some date
      ∧ "from:a@x.org after:2024/01/01" =
          "from:" +:+ "a@x.org" +:+ " after:" +:+ date.
Proof.
  apply (search_request_of_a_rule GmailService 7 "a@x.org" "Alerts" demo_world
           (label_sender GmailService 7 ("a@x.org", "Alerts") demo_world).1.1
           (label_sender GmailService 7 ("a@x.org", "Alerts") demo_world).1.2
           (label_sender GmailService 7 ("a@x.org", "Alerts") demo_world).2).
  - vm_compute. reflexivity.
  - vm_compute. in_list.
Defined.

(** X15. While a rule is processed, only messages that the search for its
    sender returned on the first page are fetched or modified. *)
Theorem only_search_results_are_touched service days sender_email label_name
    w r w1 ev id :
  label_sender service days (sender_email, label_name) w = (r, w1, ev) →
  Call (MessagesGet id) ∈ ev ∨ (∃ body, Call (MessagesModify id body) ∈ ev) →
  ∃ t date,
    calendar w t days = Some date ∧ id ∈ page w sender_email date.
Proof.
  rewrite label_sender_unfold, bind_unfold.
  destruct (get_or_create_label service label_name w)
    as [[[label_id|e] w0] ev0] eqn:E0;
    pose proof (get_or_create_label_emits _ _ _ _ _ _ E0) as Hev0;
    pose proof (resolution_keeps_calendar _ _ _ _ _ _ E0) as [Ec Es];
    rewrite Forall_forall in Hev0.
  - destruct (search_and_label _ _ _ _ label_id w0) as [[r' w2] ev2] eqn:E2.
    intros [= _ _ <-] Hin.
    destruct Hin as [Hin|[body Hin]];
      (apply elem_of_app in Hin as [Hin|Hin]; [by apply Hev0 in Hin|]);
      (apply search_and_label_events in E2
         as [Hlog|(date & ev3 & Hdate & -> & Hloop)];
       [ rewrite Forall_forall in Hlog; apply Hlog in Hin;
         by apply elem_of_nil in Hin
       | exists (ticks w0), date; rewrite <- Ec; split; [done|];
         unfold page; rewrite <- Es; fold (page w0 sender_email date);
         apply elem_of_cons in Hin as [Hin|Hin]; [discriminate Hin|];
         rewrite Forall_forall in Hloop; by apply Hloop in Hin ]).
  - intros [= _ _ <-] [Hin|[body Hin]]; by apply Hev0 in Hin.
Qed.

Lemma only_search_results_are_touched_witness :
  ∃ t date,
    calendar demo_world t 7 = Some date ∧ "m1" ∈ page demo_world "a@x.org" date.
Proof.
  apply (only_search_results_are_touched GmailService 7 "a@x.org" "Alerts"
           demo_world
           (label_sender GmailService 7 ("a@x.org", "Alerts") demo_world).1.1
           (label_sender GmailService 7 ("a@x.org", "Alerts") demo_world).1.2
           (label_sender GmailService 7 ("a@x.org", "Alerts") demo_world).2
           "m1").
  - vm_compute. reflexivity.
  - left. vm_compute. in_list.
Defined.

(** ** The log tells the truth *)

Lemma label_message_processed_carries service sender_email label_name
    label_id message w r w1 ev id s n :
  label_message service sender_email label_name label_id message w
    = (r, w1, ev) →
  processed ev id s n → carries w1 label_id id.
Proof.
  intros H. apply label_message_outcome in H.
  destruct H as [e He|ls Hm Hin|ls e Hm Hin He|ls Hm Hin]; intros [Hp|Hp];
    repeat (apply elem_of_cons in Hp as [Hp|Hp];
            [try discriminate Hp; injection Hp as -> -> ->|]);
    try (by apply elem_of_nil in Hp).
  - by exists ls.
  - exists (ls ++ [label_id]). simpl. rewrite lookup_insert_eq.
    split; [done|]. apply elem_of_app. right. by apply list_elem_of_singleton.
Qed.

Lemma inner_loop_processed_carries service sender_email label_name label_id
    msgs w r w1 ev id s n :
  for_each msgs (label_message service sender_email label_name label_id) w
    = (r, w1, ev) →
  processed ev id s n → carries w1 label_id id.
Proof.
  revert w r w1 ev. induction msgs as [|m msgs IH]; intros w r w1 ev; simpl.
  - intros [= _ _ <-] [Hp|Hp]; by apply elem_of_nil in Hp.
  - rewrite bind_unfold.
    destruct (label_message _ _ _ _ m w) as [[[[]|e] w0] ev0] eqn:E0.
    + destruct (for_each msgs _ w0) as [[r' w2] ev2] eqn:E2.
      intros [= _ <- <-] Hp. apply processed_app in Hp as [Hp|Hp].
      * pose proof (inner_loop_touched _ _ _ _ _ _ _ _ _ E2)
          as (_ & _ & _ & Ht).
        apply (touched_carries _ _ _ _ _ Ht).
        by eapply label_message_processed_carries.
      * by eapply IH.
    + intros [= _ <- <-] Hp. by eapply label_message_processed_carries.
Qed.

Lemma search_and_label_processed_carries service days sender_email label_name
    label_id w r w1 ev id s n :
  search_and_label service days sender_email label_name label_id w
    = (r, w1, ev) →
  processed ev id s n → carries w1 label_id id.
Proof.
  unfold search_and_label. case_decide.
  { intros [= _ _ <-] [Hp|Hp]; apply list_elem_of_singleton in Hp; discriminate. }
  rewrite bind_unfold. unfold date_n_days_ago at 1.
  destruct (calendar w (ticks w) days) as [date|].
  2:{ intros [= _ _ <-] [Hp|Hp]; by apply elem_of_nil in Hp. }
  rewrite bind_unfold.
  destruct (messages_list _ _ None w) as [[[resp|e] w0] ev0] eqn:E0;
    pose proof (external_events _ _ _ _ _ _ E0) as ->.
  2:{ intros [= _ _ <-] [Hp|Hp]; apply list_elem_of_singleton in Hp; discriminate. }
  destruct (default [] (messages resp)) as [|m ms].
  { intros [= _ _ <-] [Hp|Hp];
      repeat (apply elem_of_cons in Hp as [Hp|Hp]; [discriminate|]);
      by apply elem_of_nil in Hp. }
  destruct (for_each _ _ w0) as [[r' w2] ev2] eqn:E2.
  intros [= _ <- <-] Hp.
  apply (inner_loop_processed_carries _ _ _ _ _ _ _ _ _ _ s n E2).
  destruct Hp as [Hp|Hp]; apply elem_of_cons in Hp as [Hp|Hp];
    try discriminate; [by left|by right].
Qed.

Lemma label_sender_processed_carries service days rule w r w1 ev id s n :
  label_sender service days rule w = (r, w1, ev) →
  processed ev id s n →
  (s, n) = rule
  ∧ ∃ label_id,
      label_map_of (labels w1) !! n = Some label_id ∧ carries w1 label_id id.
Proof.
  destruct rule as [sender_email label_name].
  rewrite label_sender_unfold, bind_unfold.
  destruct (get_or_create_label service label_name w)
    as [[[label_id|e] w0] ev0] eqn:E0;
    pose proof (get_or_create_label_emits _ _ _ _ _ _ E0) as Hev0.
  - apply get_or_create_label_grows in E0 as (_ & _ & Hres).
    destruct (search_and_label _ _ _ _ label_id w0) as [[r' w2] ev2] eqn:E2.
    intros [= _ <- <-] Hp. apply processed_app in Hp as [Hp|Hp];
      [by apply resolution_not_processed in Hp|].
    pose proof (search_and_label_processed_carries _ _ _ _ _ _ _ _ _ _ _ _
                  E2 Hp) as Hcar.
    pose proof (search_and_label_emits _ _ _ _ _ _ _ _ _ E2) as Hev2.
    assert (s = sender_email ∧ n = label_name) as [-> ->].
    { revert E2 Hp. clear. intros E2 Hp.
      unfold search_and_label in E2. case_decide.
      { injection E2 as _ _ <-.
        destruct Hp as [Hp|Hp]; apply list_elem_of_singleton in Hp;
          discriminate. }
      rewrite bind_unfold in E2. unfold date_n_days_ago in E2 at 1.
      destruct (calendar w0 (ticks w0) days) as [date|].
      2:{ injection E2 as _ _ <-. destruct Hp as [Hp|Hp];
            by apply elem_of_nil in Hp. }
      rewrite bind_unfold in E2.
      destruct (messages_list _ _ None w0) as [[[resp|e] w3] ev3] eqn:E3;
        pose proof (external_events _ _ _ _ _ _ E3) as ->.
      2:{ injection E2 as _ _ <-. destruct Hp as [Hp|Hp];
            apply list_elem_of_singleton in Hp; discriminate. }
      destruct (default [] (messages resp)) as [|m ms].
      { injection E2 as _ _ <-. destruct Hp as [Hp|Hp];
          repeat (apply elem_of_cons in Hp as [Hp|Hp]; [discriminate|]);
          by apply elem_of_nil in Hp. }
      destruct (for_each _ _ w3) as [[r'' w4] ev4] eqn:E4.
      injection E2 as _ _ <-.
      assert (processed ev4 id s n) as Hp4.
      { destruct Hp as [Hp|Hp]; apply elem_of_cons in Hp as [Hp|Hp];
          try discriminate; [by left|by right]. }
      by destruct (inner_loop_processed _ _ _ _ _ _ _ _ _ _ _ _ E4 Hp4)
        as (_ & -> & ->). }
    split; [done|]. exists label_id. split; [|done].
    apply search_and_label_touched in E2 as (El & _). by rewrite El.
  - intros [= _ _ <-] Hp. by apply resolution_not_processed in Hp.
Qed.

Lemma outer_loop_processed_carries service days rules w r w1 ev id s n :
  for_each rules (label_sender service days) w = (r, w1, ev) →
  processed ev id s n →
  (s, n) ∈ rules
  ∧ ∃ label_id,
      label_map_of (labels w1) !! n = Some label_id ∧ carries w1 label_id id.
Proof.
  revert w r w1 ev.
  induction rules as [|rule rules IH]; intros w r w1 ev; simpl.
  - intros [= _ _ <-] [Hp|Hp]; by apply elem_of_nil in Hp.
  - rewrite bind_unfold.
    destruct (label_sender service days rule w) as [[r0 w0] ev0] eqn:E0.
    pose proof (label_sender_processed_carries _ _ _ _ _ _ _ id s n E0) as H0.
    destruct r0 as [[]|e].
    + destruct (for_each rules _ w0) as [[r' w2] ev2] eqn:E2.
      intros [= _ <- <-] Hp. apply processed_app in Hp as [Hp|Hp].
      * destruct (H0 Hp) as (<- & l & Hres & Hcar). split; [by left|].
        assert (grows w0 w2) as (_ & _ & Hl & Hm).
        { clear -E2. revert w0 r' w2 ev2 E2.
          induction rules as [|rule rules IH]; intros w0 r' w2 ev2; simpl.
          - intros [= _ <- _]. apply grows_refl, same_remote_refl.
          - rewrite bind_unfold.
            destruct (label_sender service days rule w0)
              as [[[[]|e] w3] ev3] eqn:E3;
              apply label_sender_grows in E3.
            + destruct (for_each rules _ w3) as [[r'' w4] ev4] eqn:E4.
              intros [= _ <- _]. eapply grows_trans; [done|by eapply IH].
            + by intros [= _ <- _]. }
        exists l. auto.
      * destruct (IH _ _ _ _ E2 Hp) as [Hin Hl]. split; [by right|done].
    + intros [= _ <- <-] Hp. destruct (H0 Hp) as (<- & Hl).
      split; [by left|done].
Qed.

(** X18. The log of a run can be trusted, also when the run ended early:
    a message recorded as labelled, or as already labelled, for a sender and
    a label name belongs to a configured rule, and at the end of the run it
    carries the id that the directory gives for that name. *)
Theorem logged_messages_carry_the_label service rules days w id s n :
  let out := label_emails service rules days w in
  processed out.2 id s n →
  (s, n) ∈ rules
  ∧ ∃ label_id,
      label_map_of (labels out.1.2) !! n = Some label_id
      ∧ carries out.1.2 label_id id.
Proof.
  intros out. subst out. unfold label_emails, try_except.
  destruct (for_each rules _ w) as [[[[]|e] w0] ev0] eqn:E0; simpl.
  - intros Hp. by eapply outer_loop_processed_carries.
  - destruct e; unfold_monad; simpl; rewrite ?app_nil_r;
      try (intros Hp; by eapply outer_loop_processed_carries).
    intros Hp. apply processed_app in Hp as [Hp|Hp].
    + by eapply outer_loop_processed_carries.
    + destruct Hp as [Hp|Hp]; apply list_elem_of_singleton in Hp; discriminate.
Qed.

Lemma logged_messages_carry_the_label_witness :
  let out := label_emails GmailService demo_rules 7 demo_world in
  ("a@x.org", "Alerts") ∈ demo_rules
  ∧ ∃ label_id,
      label_map_of (labels out.1.2) !! "Alerts" = Some label_id
      ∧ carries out.1.2 label_id "m1".
Proof.
  apply (logged_messages_carry_the_label GmailService demo_rules 7 demo_world
           "m1" "a@x.org" "Alerts").
  left. vm_compute. in_list.
Defined.

(** ** The entry point, continued *)

(** X1. When [config.json] is missing or cannot be parsed, [main] ends with
    the exception of [load_config], after its one error record; nothing
    else happens: no call is made and the world is as before. *)
Theorem unreadable_configuration_ends_main w :
  (∀ c, config_file w ≠ ConfigParsed c) →
  ∃ e m,
    main w = (Raise e, w, [Log ERROR m])
    ∧ ((config_file w = ConfigMissing ∧ e = FileNotFoundError
        ∧ m = ConfigNotFound "config.json")
       ∨ (config_file w = ConfigUnparsable ∧ e = JSONDecodeError
          ∧ m = ConfigParseError)).
Proof.
  intros H. unfold main, load_config, read_json. unfold_monad.
  rewrite decide_True by reflexivity.
  destruct (config_file w) as [| |c] eqn:E.
  - exists FileNotFoundError, (ConfigNotFound "config.json"). by split; [|left].
  - exists JSONDecodeError, ConfigParseError. by split; [|right].
  - by destruct (H c).
Qed.

Lemma unreadable_configuration_ends_main_witness :
  ∃ e m,
    main quiet_world = (Raise e, quiet_world, [Log ERROR m])
    ∧ ((config_file quiet_world = ConfigMissing ∧ e = FileNotFoundError
        ∧ m = ConfigNotFound "config.json")
       ∨ (config_file quiet_world = ConfigUnparsable ∧ e = JSONDecodeError
          ∧ m = ConfigParseError)).
Proof.
  apply (unreadable_configuration_ends_main quiet_world). intros c.
  discriminate.
Defined.

(** ** Labelled messages are left alone, names are resolved once *)

Lemma inner_loop_spares_labelled service sender_email label_name label_id
    msgs w r w1 ev id body :
  carries w label_id id →
  for_each msgs (label_message service sender_email label_name label_id) w
    = (r, w1, ev) →
  Call (MessagesModify id body) ∉ ev.
Proof.
  revert w r w1 ev. induction msgs as [|m msgs IH]; intros w r w1 ev Hc; simpl.
  - intros [= _ _ <-]. apply not_elem_of_nil.
  - rewrite bind_unfold.
    destruct (label_message _ _ _ _ m w) as [[r0 w0] ev0] eqn:E0.
    assert (Call (MessagesModify id body) ∉ ev0) as H0.
    { intros Hin. pose proof (label_message_outcome _ _ _ _ _ _ _ _ _ E0) as Ho.
      destruct Hc as (ls & Hm & Hl).
      destruct Ho as [e He|ls' Hm' Hl'|ls' e Hm' Hl' He|ls' Hm' Hl'];
        repeat (apply elem_of_cons in Hin as [Hin|Hin];
                [try discriminate Hin; injection Hin as -> _;
                 rewrite Hm in Hm'; injection Hm' as <-; by apply Hl'|]);
        by apply elem_of_nil in Hin. }
    apply label_message_touched in E0 as (_ & _ & _ & Ht).
    destruct r0 as [[]|e].
    + destruct (for_each msgs _ w0) as [[r' w2] ev2] eqn:E2.
      intros [= _ _ <-]. rewrite not_elem_of_app. split; [done|].
      eapply IH; [|exact E2]. by eapply touched_carries.
    + by intros [= _ _ <-].
Qed.

Lemma label_sender_spares_labelled service days sender_email
    label_name w label_id id r w1 ev :
  label_map_of (labels w) !! label_name = Some label_id →
  carries w label_id id →
  label_sender service days (sender_email, label_name) w = (r, w1, ev) →
  ∀ body, Call (MessagesModify id body) ∉ ev.
Proof.
  intros Hres Hc Hrun body. revert Hrun.
  rewrite label_sender_unfold, bind_unfold.
  destruct (get_or_create_label service label_name w)
    as [[r0 w0] ev0] eqn:E0.
  pose proof (get_or_create_label_emits _ _ _ _ _ _ E0) as Hev0.
  rewrite Forall_forall in Hev0.
  apply (get_or_create_label_known _ _ label_id) in E0
    as (-> & _ & Hid & _); [|done].
  destruct r0 as [l|e].
  2:{ intros [= _ _ <-] Hin. by apply Hev0 in Hin. }
  rewrite (Hid l eq_refl).
  destruct (search_and_label _ _ _ _ label_id (step w)) as [[r' w2] ev2] eqn:E2.
  intros [= _ _ <-]. rewrite not_elem_of_app.
  split; [intros Hin; by apply Hev0 in Hin|].
  revert E2. unfold search_and_label. case_decide.
  { intros [= _ _ <-]. not_in_list. }
  rewrite bind_unfold. unfold date_n_days_ago at 1.
  destruct (calendar (step w) (ticks (step w)) days) as [date|].
  2:{ intros [= _ _ <-]. apply not_elem_of_nil. }
  rewrite bind_unfold.
  destruct (messages_list _ _ None (step w)) as [[[resp|e] w3] ev3] eqn:E3;
    pose proof (external_events _ _ _ _ _ _ E3) as ->.
  2:{ intros [= _ _ <-]. not_in_list. }
  apply messages_list_run in E3 as [-> _].
  destruct (default [] (messages resp)) as [|m ms].
  { intros [= _ _ <-]. not_in_list. }
  destruct (for_each _ _ (step (step w))) as [[r'' w4] ev4] eqn:E4.
  intros [= _ _ <-]. apply not_elem_of_cons. split; [done|].
  eapply inner_loop_spares_labelled; [|exact E4].
  destruct Hc as (ls & Hm & Hl). by exists ls.
Qed.

(** X19. A message that carries the id under which the directory lists the
    rule's label name is not modified while the rule is processed, however
    often the search returns it and whatever fails: no event of the rule is
    a [modify] of that message. *)
Theorem labelled_messages_are_never_modified service days sender_email
    label_name w label_id id r w1 ev :
  label_map_of (labels w) !! label_name = Some label_id →
  carries w label_id id →
  label_sender service days (sender_email, label_name) w = (r, w1, ev) →
  Forall (λ e, ∀ body, e ≠ Call (MessagesModify id body)) ev.
Proof.
  intros Hres Hc Hrun. apply Forall_forall. intros e Hin body ->.
  exact (label_sender_spares_labelled _ _ _ _ _ _ _ _ _ _ Hres Hc Hrun
           body Hin).
Qed.

Lemma labelled_messages_are_never_modified_witness :
  Forall (λ e, ∀ body, e ≠ Call (MessagesModify "m2" body))
    (label_sender GmailService 7 ("a@x.org", "Alerts") demo_world).2.
Proof.
  apply (labelled_messages_are_never_modified GmailService 7 "a@x.org"
           "Alerts" demo_world "Label_1" "m2"
           (label_sender GmailService 7 ("a@x.org", "Alerts") demo_world).1.1
           (label_sender GmailService 7 ("a@x.org", "Alerts") demo_world).1.2).
  - vm_compute. reflexivity.
  - exists ["INBOX"; "Label_1"]. split; [vm_compute; reflexivity|].
    apply list_elem_of_further, list_elem_of_here.
  - vm_compute. reflexivity.
Defined.

(** X20. Resolving a name a second time gives the same id and creates
    nothing: the label created by the first resolution is found in the
    listing of the second. *)
Theorem second_resolution_finds_the_label service label_name w label_id w1 ev
    fs :
  get_or_create_label service label_name w = (Ok label_id, w1, ev) →
  let again := get_or_create_label service label_name (with_faults fs w1) in
  (∀ l, again.1.1 = Ok l → l = label_id)
  ∧ (fs = [] → again.1.1 = Ok label_id)
  ∧ (∀ body, Call (LabelsCreate body) ∉ again.2)
  ∧ labels again.1.2 = labels w1.
Proof.
  intros H again. apply get_or_create_label_grows in H as (_ & _ & Hres).
  subst again.
  destruct (get_or_create_label service label_name (with_faults fs w1))
    as [[r2 w2] ev2] eqn:E2. simpl.
  apply (get_or_create_label_known _ _ label_id) in E2
    as (-> & Hev & Hid & Hok); [|done].
  split; [done|]. split; [exact Hok|]. split; [|done].
  intros body Hin. rewrite Forall_forall in Hev. exact (Hev _ Hin).
Qed.

Lemma second_resolution_finds_the_label_witness :
  let w1 := (get_or_create_label GmailService "Bills" demo_world).1.2 in
  let again := get_or_create_label GmailService "Bills" (with_faults [] w1) in
  (∀ l, again.1.1 = Ok l → l = "Label_2")
  ∧ ([] = @nil (option exn) → again.1.1 = Ok "Label_2")
  ∧ (∀ body, Call (LabelsCreate body) ∉ again.2)
  ∧ labels again.1.2 = labels w1.
Proof.
  intros w1.
  apply (second_resolution_finds_the_label GmailService "Bills" demo_world
           "Label_2" w1
           (get_or_create_label GmailService "Bills" demo_world).2 []).
  vm_compute. reflexivity.
Defined.
